(** * data_diff: the top-level [diff_tables] entry point

    A shallow embedding of [data_diff/__init__.py]: the [TableRef] helper
    class and the keyword-argument front end [diff_tables], which opens one
    connection per side, builds one table segment per side and hands both
    to a [TableDiffer].

    The module imports [connect_to_uri], [parse_table_name], [TableSegment],
    [TableDiffer] and two default constants from sibling modules.  Those are
    modelled from the specification (each such definition says so) or taken
    as parameters. *)

From stdpp Require Import base option list gmap strings sorting.
From Stdlib Require Import ZArith Lia Ascii.

Local Open Scope Z_scope.

(** ** Values *)

(** Modelled from the spec: [DbKey] and [DbTime] are type aliases of the
    sibling module.  The specification only asks for a total order on keys
    ("numeric or lexicographically comparable"); both are integers here. *)
Abbreviation DbKey := Z (only parsing).
Abbreviation DbTime := Z (only parsing).

(** Modelled from the spec: the "query-capable handle" that
    [connect_to_uri] returns: which connection it is (handles are numbered
    in the order they are opened), the URI it was opened on, and the number
    of worker threads it was given. *)
Record Database : Type := mkDatabase {
  conn_id : nat;
  conn_uri : string;
  conn_thread_count : Z
}.

Module TableRef.
(** [class TableRef]: the two attributes stored by [__init__]. *)
Record t : Type := mk {
  db_uri : string;
  table_name : string
}.
End TableRef.

(** The keyword arguments that [diff_tables] forwards to each
    [create_table_segment] call through [**kwargs]. *)
Module SegmentKwargs.
Record t : Type := mk {
  key_column : string;
  update_column : option string;
  extra_columns : list string;
  start_key : option DbKey;
  end_key : option DbKey;
  min_time : option DbTime;
  max_time : option DbTime
}.
End SegmentKwargs.

Inductive Violation : Type :=
| MalformedKeyRange
| BisectionFactorTooSmall
| BisectionThresholdTooSmall.

Inductive Exception : Type :=
| PreconditionViolation (what : Violation)
| AttributeError
| TypeError.

Inductive Outcome (A : Type) : Type :=
| Returned (a : A)
| Raised (e : Exception).
Arguments Returned {A} a.
Arguments Raised {A} e.

Module TableSegment.
(** Modelled from the spec: the Table View of section 3 (class
    [TableSegment] of the sibling module [diff_tables]).  [database] is
    the view's source and carries its concurrency budget. *)
Record t : Type := mk {
  database : Database;
  table_path : list string;
  key_column : string;
  update_column : option string;
  extra_columns : list string;
  start_key : option DbKey;
  end_key : option DbKey;
  min_time : option DbTime;
  max_time : option DbTime
}.

Definition concurrency_budget (seg : t) : Z := conn_thread_count (database seg).

(** Modelled from the spec: a key range with both bounds set and
    [start >= end] is malformed. *)
Definition malformed (lo hi : option DbKey) : bool :=
  match lo, hi with
  | Some s, Some e => e <=? s
  | _, _ => false
  end.

(** Modelled from the spec: the constructor of [TableSegment].  "Invariant:
    if both startKey and endKey are set, startKey < endKey"; a malformed
    range is a precondition violation "rejected at Table View
    construction". *)
Definition init (db : Database) (path : list string) (kw : SegmentKwargs.t)
  : Outcome t :=
  if malformed (SegmentKwargs.start_key kw) (SegmentKwargs.end_key kw)
  then Raised (PreconditionViolation MalformedKeyRange)
  else Returned {|
    database := db;
    table_path := path;
    key_column := SegmentKwargs.key_column kw;
    update_column := SegmentKwargs.update_column kw;
    extra_columns := SegmentKwargs.extra_columns kw;
    start_key := SegmentKwargs.start_key kw;
    end_key := SegmentKwargs.end_key kw;
    min_time := SegmentKwargs.min_time kw;
    max_time := SegmentKwargs.max_time kw
  |}.

(** Modelled from the spec: "Sub-range(start, end) -> new Table View
    sharing all other attributes, narrowed to [start, end).  Does not
    query; pure construction." *)
Definition sub_range (seg : t) (lo hi : option DbKey) : t :=
  {| database := database seg;
     table_path := table_path seg;
     key_column := key_column seg;
     update_column := update_column seg;
     extra_columns := extra_columns seg;
     start_key := lo;
     end_key := hi;
     min_time := min_time seg;
     max_time := max_time seg |}.
End TableSegment.

Module TableDiffer.
(** Modelled from the spec: the configuration of the Bisection Differ
    (section 4.2), with the [debug] flag that [diff_tables] also passes. *)
Record t : Type := mk {
  bisection_factor : Z;
  bisection_threshold : Z;
  debug : bool;
  threaded : bool;
  max_threadpool_size : option Z
}.

(** Modelled from the spec: the constructor of [TableDiffer].
    "Configuration (validated at construction): bisectionFactor >= 2,
    bisectionThreshold >= 1". *)
Definition init (bisection_factor bisection_threshold : Z)
    (debug threaded : bool) (max_threadpool_size : option Z) : Outcome t :=
  if bisection_factor <? 2
  then Raised (PreconditionViolation BisectionFactorTooSmall)
  else if bisection_threshold <? 1
  then Raised (PreconditionViolation BisectionThresholdTooSmall)
  else Returned (mk bisection_factor bisection_threshold debug threaded
                    max_threadpool_size).
End TableDiffer.

(** Modelled from the spec: the "lazy sequence of Difference Record"
    returned by [TableDiffer.diff_tables].  Nothing has been compared yet;
    the iterator remembers the differ and the two segments it will compare
    once it is consumed. *)
Record DiffIterator : Type := mkDiffIterator {
  it_differ : TableDiffer.t;
  it_table1 : TableSegment.t;
  it_table2 : TableSegment.t
}.

(** ** The interpreter state *)

(** Every call that [diff_tables] makes into the sibling modules, in the
    order it is made. *)
Inductive Call : Type :=
| Call_connect_to_uri (db_uri : string) (thread_count : Z)
| Call_parse_table_name (table_name : string)
| Call_TableSegment (db : Database) (path : list string) (kw : SegmentKwargs.t)
| Call_TableDiffer (bisection_factor bisection_threshold : Z)
    (debug threaded : bool) (max_threadpool_size : option Z)
| Call_differ_diff_tables (differ : TableDiffer.t) (table1 table2 : TableSegment.t).

(** [TableRef] instances are mutable Python objects: they live in a heap
    and are passed by reference. *)
Abbreviation ref := nat (only parsing).

Record Runtime : Type := mkRuntime {
  heap : gmap nat TableRef.t;
  connections : nat;
  trace : list Call
}.

Definition M (A : Type) : Type := Runtime → Outcome A * Runtime.

Definition ret {A} (a : A) : M A := λ s, (Returned a, s).

Definition raise {A} (e : Exception) : M A := λ s, (Raised e, s).

Definition bind {A B} (m : M A) (k : A → M B) : M B :=
  λ s, match m s with
       | (Returned a, s') => k a s'
       | (Raised e, s') => (Raised e, s')
       end.

Declare Scope py_scope.
Delimit Scope py_scope with py.
Notation "x <~ m ;; k" := (bind m (λ x, k))
  (at level 100, m at next level, right associativity) : py_scope.
Local Open Scope py_scope.

Definition log (c : Call) : M unit :=
  λ s, (Returned tt,
        {| heap := heap s; connections := connections s;
           trace := trace s ++ [c] |}).

Definition lift {A} (o : Outcome A) : M A := λ s, (o, s).

Definition getattr (self : ref) : M TableRef.t :=
  λ s, match heap s !! self with
       | Some o => (Returned o, s)
       | None => (Raised AttributeError, s)
       end.

(** ** The calls into the sibling modules *)

(** Modelled from the spec: [connect_to_uri] of the sibling module
    [database] ("establishing a database connection and translating it
    into a query-capable handle").  Each call opens a new connection. *)
Definition connect_to_uri (db_uri : string) (thread_count : Z) : M Database :=
  λ s, (Returned (mkDatabase (connections s) db_uri thread_count),
        {| heap := heap s; connections := S (connections s);
           trace := trace s ++ [Call_connect_to_uri db_uri thread_count] |}).

(** Modelled from the spec: [parse_table_name] of the sibling module
    ("parsing a database.table identifier string"): the components between
    the dots. *)
Fixpoint split_dots (t : string) : list string :=
  match t with
  | EmptyString => [EmptyString]
  | String c t' =>
      if Ascii.eqb c "."%char then EmptyString :: split_dots t'
      else match split_dots t' with
           | [] => [String c EmptyString]
           | w :: ws => String c w :: ws
           end
  end.

(** The call of [parse_table_name], logged. *)
Definition parse_table_name (table_name : string) : M (list string) :=
  _ <~ log (Call_parse_table_name table_name) ;;
  ret (split_dots table_name).

(** [TableSegment(db, path, **kwargs)]: the constructor call, logged. *)
Definition new_TableSegment (db : Database) (path : list string)
    (kwargs : SegmentKwargs.t) : M TableSegment.t :=
  _ <~ log (Call_TableSegment db path kwargs) ;;
  lift (TableSegment.init db path kwargs).

(** [TableDiffer(bisection_factor=.., ..)]: the constructor call, logged. *)
Definition new_TableDiffer (bisection_factor bisection_threshold : Z)
    (debug threaded : bool) (max_threadpool_size : option Z) : M TableDiffer.t :=
  _ <~ log (Call_TableDiffer bisection_factor bisection_threshold debug
                             threaded max_threadpool_size) ;;
  lift (TableDiffer.init bisection_factor bisection_threshold debug threaded
                         max_threadpool_size).

(** Modelled from the spec: [TableDiffer.diff_tables] returns "a lazy
    sequence of Difference Record": the call itself compares nothing. *)
Definition differ_diff_tables (differ : TableDiffer.t)
    (table1 table2 : TableSegment.t) : M DiffIterator :=
  _ <~ log (Call_differ_diff_tables differ table1 table2) ;;
  ret (mkDiffIterator differ table1 table2).

(** ** [class TableRef] *)

(** [TableRef(db_uri, table_name)]: allocate the object, then [__init__]
    stores both attributes. *)
Definition new_TableRef (db_uri table_name : string) : M ref :=
  λ s, let self := fresh (dom (heap s)) in
       (Returned self,
        {| heap := <[self := TableRef.mk db_uri table_name]> (heap s);
           connections := connections s; trace := trace s |}).

(** [TableRef.create_table_segment(self, thread_count=1, **kwargs)]. *)
Definition create_table_segment (self : ref) (thread_count : option Z)
    (kwargs : SegmentKwargs.t) : M TableSegment.t :=
  let thread_count := default 1 thread_count in
  o <~ getattr self ;;
  db <~ connect_to_uri (TableRef.db_uri o) thread_count ;;
  o' <~ getattr self ;;
  path <~ parse_table_name (TableRef.table_name o') ;;
  new_TableSegment db path kwargs.

(** ** [diff_tables] *)

(** The keyword-only parameters of [diff_tables]; [None] is a keyword the
    caller did not pass.  A parameter whose Python type is [Optional]
    distinguishes "not passed" from "passed [None]". *)
Module Kwargs.
Record t : Type := mk {
  key_column : option string;
  update_column : option (option string);
  extra_columns : option (list string);
  start_key : option (option DbKey);
  end_key : option (option DbKey);
  min_time : option (option DbTime);
  max_time : option (option DbTime);
  bisection_factor : option Z;
  bisection_threshold : option Z;
  threaded : option bool;
  max_threadpool_size : option (option Z);
  debug : option bool;
  db_thread_count : option Z
}.

(** A call that passes no keyword at all. *)
Definition empty : t :=
  mk None None None None None None None None None None None None None.
End Kwargs.

(** [[f(x) for x in xs]]: the calls are made left to right and the first
    exception ends the comprehension. *)
Fixpoint comprehension {A B} (f : A → M B) (xs : list A) : M (list B) :=
  match xs with
  | [] => ret []
  | x :: xs' =>
      y <~ f x ;;
      ys <~ comprehension f xs' ;;
      ret (y :: ys)
  end.

(** The two defaults imported from the sibling module [diff_tables]; their
    values are not fixed here. *)
Class Defaults : Type := mkDefaults {
  DEFAULT_BISECTION_FACTOR : Z;
  DEFAULT_BISECTION_THRESHOLD : Z
}.

Section diff_tables.
Context `{Defaults}.

(** The values the parameters of [diff_tables] are bound to by a call. *)
Definition segment_kwargs (kw : Kwargs.t) : SegmentKwargs.t :=
  {| SegmentKwargs.key_column := default "id"%string (Kwargs.key_column kw);
     SegmentKwargs.update_column := default None (Kwargs.update_column kw);
     SegmentKwargs.extra_columns := default [] (Kwargs.extra_columns kw);
     SegmentKwargs.start_key := default None (Kwargs.start_key kw);
     SegmentKwargs.end_key := default None (Kwargs.end_key kw);
     SegmentKwargs.min_time := default None (Kwargs.min_time kw);
     SegmentKwargs.max_time := default None (Kwargs.max_time kw) |}.

Definition bound_bisection_factor (kw : Kwargs.t) : Z :=
  default DEFAULT_BISECTION_FACTOR (Kwargs.bisection_factor kw).
Definition bound_bisection_threshold (kw : Kwargs.t) : Z :=
  default DEFAULT_BISECTION_THRESHOLD (Kwargs.bisection_threshold kw).
Definition bound_threaded (kw : Kwargs.t) : bool :=
  default true (Kwargs.threaded kw).
Definition bound_max_threadpool_size (kw : Kwargs.t) : option Z :=
  default (Some 1) (Kwargs.max_threadpool_size kw).
Definition bound_debug (kw : Kwargs.t) : bool :=
  default false (Kwargs.debug kw).
Definition bound_db_thread_count (kw : Kwargs.t) : Z :=
  default 1 (Kwargs.db_thread_count kw).

Definition diff_tables (table1 table2 : ref) (kw : Kwargs.t) : M DiffIterator :=
  let tables := [table1; table2] in
  segments <~ comprehension
      (λ t, create_table_segment t (Some (bound_db_thread_count kw))
                                 (segment_kwargs kw))
      tables ;;
  differ <~ new_TableDiffer (bound_bisection_factor kw)
              (bound_bisection_threshold kw) (bound_debug kw)
              (bound_threaded kw) (bound_max_threadpool_size kw) ;;
  match segments with
  | [segment1; segment2] => differ_diff_tables differ segment1 segment2
  | _ => raise TypeError
  end.
End diff_tables.

(** ** The bisection differ *)

(** Modelled from the spec: a fetched row "(key, updateColumn?,
    extraColumns...)". *)
Record Row : Type := mkRow {
  row_key : DbKey;
  row_time : option DbTime;
  row_extra : list Z
}.

(** Modelled from the spec: the Difference Record of section 3: a row on
    side A only, a row on side B only, or a row on both sides whose content
    differs (both versions attached). *)
Inductive DiffRecord : Type :=
| Removed (a : Row)
| Added (b : Row)
| Changed (a b : Row).

Definition record_key (d : DiffRecord) : DbKey :=
  match d with
  | Removed a => row_key a
  | Added b => row_key b
  | Changed a _ => row_key a
  end.

(** Modelled from the spec: the query-execution collaborator of section 6
    and the worker pool of section 5.  [select uri path key upd extra] is
    the content of the table [path] of the database at [uri], projected on
    the given columns; [row_hash] is the per-row hash of the checksum;
    [schedule] is the order in which the records of sibling sub-ranges
    arrive when they are compared concurrently.  The content does not
    change while a diff runs and queries succeed. *)
Record Env : Type := mkEnv {
  select : string → list string → string → option string → list string → list Row;
  row_hash : Row → Z;
  schedule : list (list DiffRecord) → list DiffRecord
}.

Definition key_le (a b : Row) : Prop := row_key a ≤ row_key b.

Global Instance key_le_dec : RelDecision key_le.
Proof. intros a b. unfold key_le. apply _. Defined.

Definition above (lo : option Z) (x : option Z) : bool :=
  match lo with
  | None => true
  | Some l => match x with Some v => l <=? v | None => false end
  end.

Definition below (hi : option Z) (x : option Z) : bool :=
  match hi with
  | None => true
  | Some h => match x with Some v => v <=? h | None => false end
  end.

Definition strictly_below (hi : option Z) (x : Z) : bool :=
  match hi with
  | None => true
  | Some h => x <? h
  end.

(** Modelled from the spec: "keyRange: half-open interval [startKey,
    endKey); None bound means unbounded in that direction". *)
Definition in_key_range (seg : TableSegment.t) (k : DbKey) : bool :=
  above (TableSegment.start_key seg) (Some k)
  && strictly_below (TableSegment.end_key seg) k.

(** Modelled from the spec: "timeRange: closed interval [minTime,
    maxTime] applied as an additional filter", used when the view has an
    update column.  A row without a time passes no bound that is set. *)
Definition in_time_range (seg : TableSegment.t) (r : Row) : bool :=
  match TableSegment.update_column seg with
  | None => true
  | Some _ => above (TableSegment.min_time seg) (row_time r)
              && below (TableSegment.max_time seg) (row_time r)
  end.

Definition in_range (seg : TableSegment.t) (r : Row) : bool :=
  in_key_range seg (row_key r) && in_time_range seg r.

Section core.
Variable env : Env.

Definition table_rows (seg : TableSegment.t) : list Row :=
  select env (conn_uri (TableSegment.database seg))
    (TableSegment.table_path seg) (TableSegment.key_column seg)
    (TableSegment.update_column seg) (TableSegment.extra_columns seg).

Definition rows_in_range (seg : TableSegment.t) : list Row :=
  filter (λ r, in_range seg r) (table_rows seg).

(** Modelled from the spec: "RowCount() ... Counts rows within keyRange
    and timeRange". *)
Definition RowCount (seg : TableSegment.t) : Z :=
  Z.of_nat (length (rows_in_range seg)).

(** Modelled from the spec: "Checksum() ... a commutative,
    order-independent aggregate over all in-range rows ... Must be
    defined even for an empty range (fixed sentinel value)": the sum of
    the rows' hashes, 0 on an empty range. *)
Definition Checksum (seg : TableSegment.t) : Z :=
  foldr (λ r acc, row_hash env r + acc) 0 (rows_in_range seg).

(** Modelled from the spec: "FetchRows() ... ordered by keyColumn
    ascending". *)
Definition FetchRows (seg : TableSegment.t) : list Row :=
  merge_sort key_le (rows_in_range seg).

(** The distinct keys of a list, ascending. *)
Definition distinct_keys (ks : list DbKey) : list DbKey :=
  merge_sort Z.le (remove_dups ks).

(** Whether position [i] of a run of [len] keys is one of the [n - 1]
    positions [j * len / n], [j = 1 .. n - 1], that cut it in [n] parts. *)
Definition is_cut (n len i : nat) : bool :=
  existsb (λ j, (j * len / n =? i)%nat) (seq 1 (Nat.pred n)).

(** [pick cut i l] keeps the elements of [l] whose position, counted from
    [i], is a cut. *)
Fixpoint pick (cut : nat → bool) (i : nat) (l : list DbKey) : list DbKey :=
  match l with
  | [] => []
  | x :: l' => if cut i then x :: pick cut (S i) l' else pick cut (S i) l'
  end.

(** Modelled from the spec: "Checkpoints(n) -> ordered sequence of n-1 key
    values partitioning the view's key range into n sub-ranges as evenly
    as practical ... may sample actual existing key values ... If the
    range contains fewer than n distinct keys, returns fewer split
    points".  The checkpoints are the existing keys at the cut positions;
    the least key is never one, so that no sub-range is empty. *)
Definition split_points (n : nat) (ks : list DbKey) : list DbKey :=
  pick (is_cut n (length ks)) 1 (tail ks).

Definition Checkpoints (seg : TableSegment.t) (n : nat) : list DbKey :=
  split_points n (distinct_keys (row_key <$> rows_in_range seg)).

(** Modelled from the spec: step 4, "compute shared checkpoints over the
    union of both sides' key domains so that both resulting sub-range
    boundaries line up identically on A and B". *)
Definition shared_checkpoints (n : nat) (a b : TableSegment.t) : list DbKey :=
  split_points n
    (distinct_keys ((row_key <$> rows_in_range a) ++ (row_key <$> rows_in_range b))).

(** The bounds of the sub-ranges cut by the checkpoints [cs] in
    [lo, hi): [lo, c1), [c1, c2), ..., [ck, hi). *)
Fixpoint sub_bounds (lo : option DbKey) (cs : list DbKey) (hi : option DbKey)
  : list (option DbKey * option DbKey) :=
  match cs with
  | [] => [(lo, hi)]
  | c :: cs' => (lo, Some c) :: sub_bounds (Some c) cs' hi
  end.

Definition same_content (a b : Row) : bool :=
  bool_decide (row_time a = row_time b ∧ row_extra a = row_extra b).

(** Modelled from the spec: step 2, the merge-walk of two ascending-key
    row sequences. *)
Fixpoint merge_compare (rows_a : list Row) : list Row → list DiffRecord :=
  fix walk (rows_b : list Row) : list DiffRecord :=
    match rows_a, rows_b with
    | [], _ => Added <$> rows_b
    | _, [] => Removed <$> rows_a
    | a :: rows_a', b :: rows_b' =>
        if row_key a <? row_key b then Removed a :: merge_compare rows_a' rows_b
        else if row_key b <? row_key a then Added b :: walk rows_b'
        else if same_content a b then merge_compare rows_a' rows_b'
        else Changed a b :: merge_compare rows_a' rows_b'
    end.

(** Modelled from the spec: the algorithm of section 4.2, steps 1 to 4,
    on one pair of corresponding ranges.  [depth] bounds the depth of the
    recursion; [None] is a comparison that needs to go deeper. *)
Fixpoint bisect_and_diff (differ : TableDiffer.t) (depth : nat)
    (a b : TableSegment.t) : option (list DiffRecord) :=
  match depth with
  | O => None
  | S depth' =>
      let count_a := RowCount a in
      let count_b := RowCount b in
      if (count_a =? 0) && (count_b =? 0) then Some []
      else if (count_a <=? TableDiffer.bisection_threshold differ)
              || (count_b <=? TableDiffer.bisection_threshold differ)
      then Some (merge_compare (FetchRows a) (FetchRows b))
      else if (count_a =? count_b) && (Checksum a =? Checksum b) then Some []
      else
        let cs := shared_checkpoints
                    (Z.to_nat (TableDiffer.bisection_factor differ)) a b in
        parts ← mapM (λ '(lo, hi),
                        bisect_and_diff differ depth'
                          (TableSegment.sub_range a lo hi)
                          (TableSegment.sub_range b lo hi))
                     (sub_bounds (TableSegment.start_key a) cs
                                 (TableSegment.end_key a));
        Some (if TableDiffer.threaded differ then schedule env parts
              else concat parts)
  end.

(** Modelled from the spec: "DiffTables(viewA, viewB) -> lazy sequence of
    Difference Record": the records obtained by consuming the iterator
    to exhaustion. *)
Definition records (depth : nat) (it : DiffIterator) : option (list DiffRecord) :=
  bisect_and_diff (it_differ it) depth (it_table1 it) (it_table2 it).
End core.

(** * The vocabulary of the properties *)

(** ** What a call of [diff_tables] is expected to build *)

Section bound.
Context `{Defaults}.

(** The connection opened for the [n]-th side ([n] is 0 or 1) by a call
    made in state [s]. *)
Definition side_database (s : Runtime) (n : nat) (o : TableRef.t)
    (kw : Kwargs.t) : Database :=
  mkDatabase (n + connections s) (TableRef.db_uri o) (bound_db_thread_count kw).

Definition side_segment (s : Runtime) (n : nat) (o : TableRef.t)
    (kw : Kwargs.t) : TableSegment.t :=
  let skw := segment_kwargs kw in
  TableSegment.mk (side_database s n o kw) (split_dots (TableRef.table_name o))
    (SegmentKwargs.key_column skw) (SegmentKwargs.update_column skw)
    (SegmentKwargs.extra_columns skw) (SegmentKwargs.start_key skw)
    (SegmentKwargs.end_key skw) (SegmentKwargs.min_time skw)
    (SegmentKwargs.max_time skw).

(** The calls made by one [create_table_segment]. *)
Definition side_calls (s : Runtime) (n : nat) (o : TableRef.t)
    (kw : Kwargs.t) : list Call :=
  [Call_connect_to_uri (TableRef.db_uri o) (bound_db_thread_count kw);
   Call_parse_table_name (TableRef.table_name o);
   Call_TableSegment (side_database s n o kw)
     (split_dots (TableRef.table_name o)) (segment_kwargs kw)].

Definition differ_call (kw : Kwargs.t) : Call :=
  Call_TableDiffer (bound_bisection_factor kw) (bound_bisection_threshold kw)
    (bound_debug kw) (bound_threaded kw) (bound_max_threadpool_size kw).

Definition bound_differ (kw : Kwargs.t) : TableDiffer.t :=
  TableDiffer.mk (bound_bisection_factor kw) (bound_bisection_threshold kw)
    (bound_debug kw) (bound_threaded kw) (bound_max_threadpool_size kw).

Definition malformed_range (kw : Kwargs.t) : bool :=
  TableSegment.malformed (SegmentKwargs.start_key (segment_kwargs kw))
                         (SegmentKwargs.end_key (segment_kwargs kw)).

Definition after (s : Runtime) (opened : nat) (calls : list Call) : Runtime :=
  {| heap := heap s; connections := opened + connections s;
     trace := trace s ++ calls |}.

End bound.

(** ** Orders, ranges and views *)

Definition record_le (d1 d2 : DiffRecord) : Prop := record_key d1 ≤ record_key d2.

Definition within (lo hi : option DbKey) (k : DbKey) : bool :=
  above lo (Some k) && strictly_below hi k.

(** Two views of the same source, with the same columns and the same
    ranges.  The connections may differ. *)
Definition same_view (a b : TableSegment.t) : Prop :=
  conn_uri (TableSegment.database a) = conn_uri (TableSegment.database b)
  ∧ TableSegment.table_path a = TableSegment.table_path b
  ∧ TableSegment.key_column a = TableSegment.key_column b
  ∧ TableSegment.update_column a = TableSegment.update_column b
  ∧ TableSegment.extra_columns a = TableSegment.extra_columns b
  ∧ TableSegment.start_key a = TableSegment.start_key b
  ∧ TableSegment.end_key a = TableSegment.end_key b
  ∧ TableSegment.min_time a = TableSegment.min_time b
  ∧ TableSegment.max_time a = TableSegment.max_time b.

(** The invariant of a Table View: when both key bounds are set, the
    start is below the end. *)
Definition well_formed (seg : TableSegment.t) : Prop :=
  ∀ lo hi,
    TableSegment.start_key seg = Some lo →
    TableSegment.end_key seg = Some hi → lo < hi.

(** The logical bounds of a view: everything but its source. *)
Definition logical_bounds (seg : TableSegment.t) : SegmentKwargs.t :=
  SegmentKwargs.mk (TableSegment.key_column seg) (TableSegment.update_column seg)
    (TableSegment.extra_columns seg) (TableSegment.start_key seg)
    (TableSegment.end_key seg) (TableSegment.min_time seg)
    (TableSegment.max_time seg).

Section range.
Variable env : Env.

(** The uniqueness precondition of the specification: no two rows of the
    table have the same key. *)
Definition unique_keys (seg : TableSegment.t) : Prop :=
  NoDup (row_key <$> table_rows env seg).

(** The distinct keys present in the compared range on either side. *)
Definition range_keys (a b : TableSegment.t) : list DbKey :=
  distinct_keys ((row_key <$> rows_in_range env a) ++ (row_key <$> rows_in_range env b)).

End range.

(** ** The calls made by [diff_tables] *)

(** The calls logged between two states. *)
Definition calls_made (s s' : Runtime) : list Call :=
  drop (length (trace s)) (trace s').

(** The arguments of the [connect_to_uri] calls among [calls], in order. *)
Definition connect_calls (calls : list Call) : list (string * Z) :=
  omap (λ c, match c with
             | Call_connect_to_uri db_uri thread_count => Some (db_uri, thread_count)
             | _ => None
             end) calls.

(** The keyword arguments of the [TableSegment] constructor calls among
    [calls], in order. *)
Definition segment_calls (calls : list Call) : list SegmentKwargs.t :=
  omap (λ c, match c with
             | Call_TableSegment _ _ kw => Some kw
             | _ => None
             end) calls.

(** Whether a call constructs the differ, and whether it asks the differ
    to compare. *)
Definition constructs_differ (c : Call) : bool :=
  match c with Call_TableDiffer _ _ _ _ _ => true | _ => false end.

Definition starts_diff (c : Call) : bool :=
  match c with Call_differ_diff_tables _ _ _ => true | _ => false end.

Definition preserves_heap {A} (m : M A) : Prop :=
  ∀ s, heap (m s).2 = heap s.

(** ** Readings of the specification that are put to the test *)

(** The claim as it is stated: a call opens one connection per side. *)
Definition opens_one_connection_per_side `{Defaults}
    (s : Runtime) (table1 table2 : ref) (kw : Kwargs.t) : Prop :=
  ∃ o1 o2,
    heap s !! table1 = Some o1 ∧ heap s !! table2 = Some o2
    ∧ connect_calls (calls_made s (diff_tables table1 table2 kw s).2)
      = [(TableRef.db_uri o1, bound_db_thread_count kw);
         (TableRef.db_uri o2, bound_db_thread_count kw)]
    ∧ connections (diff_tables table1 table2 kw s).2 = (2 + connections s)%nat.

Definition with_max_threadpool_size (v : option (option Z)) (kw : Kwargs.t)
  : Kwargs.t :=
  Kwargs.mk (Kwargs.key_column kw) (Kwargs.update_column kw)
    (Kwargs.extra_columns kw) (Kwargs.start_key kw) (Kwargs.end_key kw)
    (Kwargs.min_time kw) (Kwargs.max_time kw) (Kwargs.bisection_factor kw)
    (Kwargs.bisection_threshold kw) (Kwargs.threaded kw) v (Kwargs.debug kw)
    (Kwargs.db_thread_count kw).

(** The claim as it is stated: not passing [max_threadpool_size] is the
    same as passing [None]. *)
Definition absent_pool_size_is_None `{Defaults}
    (s : Runtime) (table1 table2 : ref) (kw : Kwargs.t) : Prop :=
  diff_tables table1 table2 (with_max_threadpool_size None kw) s
  = diff_tables table1 table2 (with_max_threadpool_size (Some None) kw) s.

(** Two calls that agree on the configuration the claim lists: the
    columns and bounds of the views, the bisection factor, the bisection
    threshold, the concurrency toggle and the maximal worker count. *)
Definition same_listed_configuration `{Defaults} (kw kw' : Kwargs.t) : Prop :=
  segment_kwargs kw = segment_kwargs kw'
  ∧ bound_bisection_factor kw = bound_bisection_factor kw'
  ∧ bound_bisection_threshold kw = bound_bisection_threshold kw'
  ∧ bound_threaded kw = bound_threaded kw'
  ∧ bound_max_threadpool_size kw = bound_max_threadpool_size kw'.

(** The claim as it is stated: nothing but the listed configuration
    reaches the differ and the views. *)
Definition listed_configuration_is_all `{Defaults}
    (s : Runtime) (table1 table2 : ref) (kw kw' : Kwargs.t) : Prop :=
  same_listed_configuration kw kw' →
  diff_tables table1 table2 kw s = diff_tables table1 table2 kw' s.

(** ** Keyword arguments passed in full *)


(** Two calls that pass the same keywords to the differ's constructor. *)
Definition same_differ_keywords `{Defaults} (kw kw' : Kwargs.t) : Prop :=
  bound_bisection_factor kw = bound_bisection_factor kw'
  ∧ bound_bisection_threshold kw = bound_bisection_threshold kw'
  ∧ bound_debug kw = bound_debug kw'
  ∧ bound_threaded kw = bound_threaded kw'
  ∧ bound_max_threadpool_size kw = bound_max_threadpool_size kw'.

(** Two calls that pass the same keywords to [create_table_segment]. *)
Definition same_segment_keywords `{Defaults} (kw kw' : Kwargs.t) : Prop :=
  segment_kwargs kw = segment_kwargs kw'
  ∧ bound_db_thread_count kw = bound_db_thread_count kw'.

(** What a view is a view of: the URI of its connection, its table and
    its logical bounds. *)
Definition view_of (seg : TableSegment.t)
  : string * list string * SegmentKwargs.t :=
  (conn_uri (TableSegment.database seg), TableSegment.table_path seg,
   logical_bounds seg).

(** ** Concrete inputs *)

Definition demo_defaults : Defaults := mkDefaults 32 16384.

(** Two [TableRef] objects, at references 0 and 1. *)
Definition demo_left : TableRef.t := TableRef.mk "postgres:///a" "public.rating".
Definition demo_right : TableRef.t := TableRef.mk "mysql:///b" "rating".

Definition demo_state : Runtime :=
  mkRuntime (<[1%nat := demo_right]> (<[0%nat := demo_left]> ∅)) 0 [].

Definition demo_row (k v : Z) : Row := mkRow k None [v].

(** Side A holds keys 1..6 and 8, side B holds keys 1..4 and 6..8 and a
    different value at key 3.  The scheduler of the concurrent mode hands
    over the sub-ranges last first. *)
Definition demo_env : Env :=
  mkEnv (λ uri _ _ _ _,
           if String.eqb uri "postgres:///a"
           then [demo_row 3 0; demo_row 1 0; demo_row 2 0; demo_row 5 0;
                 demo_row 4 0; demo_row 6 0; demo_row 8 0]
           else [demo_row 1 0; demo_row 2 0; demo_row 3 1; demo_row 4 0;
                 demo_row 6 0; demo_row 7 0; demo_row 8 0])
        (λ r, row_key r + 100 * default 0 (head (row_extra r)))
        (λ parts, concat (reverse parts)).

(** [diff_tables(.., bisection_factor=2, bisection_threshold=1,
    threaded=False)]. *)
Definition demo_sequential : Kwargs.t :=
  Kwargs.mk None None None None None None None (Some 2) (Some 1) (Some false)
            None None None.

(** [diff_tables(.., bisection_factor=2, bisection_threshold=1)], with
    the concurrency toggle left on. *)
Definition demo_concurrent : Kwargs.t :=
  Kwargs.mk None None None None None None None (Some 2) (Some 1) None
            None None None.

(** The iterator that [demo_sequential] returns in [demo_state]. *)
Definition demo_iterator : DiffIterator :=
  mkDiffIterator
    (TableDiffer.mk 2 1 false false (Some 1))
    (TableSegment.mk (mkDatabase 0 "postgres:///a" 1) ["public"; "rating"]%string
       "id" None [] None None None None)
    (TableSegment.mk (mkDatabase 1 "mysql:///b" 1) ["rating"]%string
       "id" None [] None None None None).

(** [diff_tables(.., db_thread_count=4)]. *)
Definition demo_four_threads : Kwargs.t :=
  Kwargs.mk None None None None None None None None None None None None (Some 4).

(** [diff_tables(.., start_key=5, end_key=3)]. *)
Definition demo_malformed : Kwargs.t :=
  Kwargs.mk None None None (Some (Some 5)) (Some (Some 3)) None None None None
            None None None None.

(** [diff_tables(.., bisection_factor=1)]. *)
Definition demo_factor_one : Kwargs.t :=
  Kwargs.mk None None None None None None None (Some 1) None None None None None.

(** [diff_tables(.., debug=True)]. *)
Definition demo_debug : Kwargs.t :=
  Kwargs.mk None None None None None None None None None None None (Some true)
            None.

(** The keywords that a direct call of [create_table_segment] passes on:
    keys from 10 to 20, an update column. *)
Definition demo_segment_kwargs : SegmentKwargs.t :=
  SegmentKwargs.mk "id" (Some "updated_at"%string) ["name"%string] (Some 10)
                   (Some 20) None None.


(** [demo_state] with a third [TableRef] and another trace. *)
Definition demo_state_busy : Runtime :=
  mkRuntime (<[2%nat := TableRef.mk "sqlite:///c" "t"]> (heap demo_state)) 0
            [Call_parse_table_name "t"].

(** * Properties *)

Global Instance key_le_total : Total key_le.
Proof. intros a b. unfold key_le. lia. Qed.

Global Instance key_le_trans : Transitive key_le.
Proof. intros a b c. unfold key_le. lia. Qed.

(** ** How a call of [diff_tables] runs *)

Section run.
Context `{Defaults}.

Lemma create_table_segment_run s self o thread_count kwargs :
  heap s !! self = Some o →
  create_table_segment self (Some thread_count) kwargs s
  = let db := mkDatabase (connections s) (TableRef.db_uri o) thread_count in
    (TableSegment.init db (split_dots (TableRef.table_name o)) kwargs,
     {| heap := heap s; connections := S (connections s);
        trace := trace s
                 ++ [Call_connect_to_uri (TableRef.db_uri o) thread_count;
                     Call_parse_table_name (TableRef.table_name o);
                     Call_TableSegment db
                       (split_dots (TableRef.table_name o)) kwargs] |}).
Proof.
  intros Ho.
  unfold create_table_segment, parse_table_name, new_TableSegment,
    connect_to_uri, getattr, bind, log, lift, ret.
  cbn [default heap connections trace]. rewrite Ho.
  cbn [default heap connections trace]. rewrite Ho.
  cbn [default heap connections trace].
  by rewrite <- !app_assoc.
Qed.

Lemma create_table_segment_rejects s self o n kw :
  heap s !! self = Some o →
  malformed_range kw = true →
  create_table_segment self (Some (bound_db_thread_count kw))
      (segment_kwargs kw) (after s n [])
  = (Raised (PreconditionViolation MalformedKeyRange),
     after s (S n) (side_calls s n o kw)).
Proof.
  intros Ho Hbad. unfold malformed_range in Hbad.
  rewrite (create_table_segment_run _ _ o) by done.
  unfold TableSegment.init. rewrite Hbad.
  unfold after, side_calls, side_database.
  cbn [heap connections trace]. by rewrite app_nil_r.
Qed.

Lemma create_table_segment_accepts s self o n pre kw :
  heap s !! self = Some o →
  malformed_range kw = false →
  create_table_segment self (Some (bound_db_thread_count kw))
      (segment_kwargs kw) (after s n pre)
  = (Returned (side_segment s n o kw),
     after s (S n) (pre ++ side_calls s n o kw)).
Proof.
  intros Ho Hok. unfold malformed_range in Hok.
  rewrite (create_table_segment_run _ _ o) by done.
  unfold TableSegment.init. rewrite Hok.
  unfold after, side_calls, side_database, side_segment.
  cbn [heap connections trace]. by rewrite <- !app_assoc.
Qed.

Lemma after_nothing s : after s 0 [] = s.
Proof. destruct s. unfold after. simpl. by rewrite app_nil_r. Qed.

(** A malformed key range ends the call in the first segment's
    constructor. *)
Lemma diff_tables_malformed s table1 table2 o1 kw :
  heap s !! table1 = Some o1 →
  malformed_range kw = true →
  diff_tables table1 table2 kw s
  = (Raised (PreconditionViolation MalformedKeyRange),
     after s 1 (side_calls s 0 o1 kw)).
Proof.
  intros Ho Hbad.
  unfold diff_tables, comprehension, bind at 1 2.
  rewrite <- (after_nothing s) at 1.
  by rewrite (create_table_segment_rejects _ _ _ _ _ Ho Hbad).
Qed.

Lemma segments_built s table1 table2 o1 o2 kw :
  heap s !! table1 = Some o1 →
  heap s !! table2 = Some o2 →
  malformed_range kw = false →
  comprehension
    (λ t, create_table_segment t (Some (bound_db_thread_count kw))
                               (segment_kwargs kw))
    [table1; table2] s
  = (Returned [side_segment s 0 o1 kw; side_segment s 1 o2 kw],
     after s 2 (side_calls s 0 o1 kw ++ side_calls s 1 o2 kw)).
Proof.
  intros H1 H2 Hok. unfold comprehension, bind at 1.
  rewrite <- (after_nothing s) at 1.
  rewrite (create_table_segment_accepts _ _ _ _ _ _ H1 Hok).
  unfold bind at 1 2.
  rewrite (create_table_segment_accepts _ _ _ _ _ _ H2 Hok).
  reflexivity.
Qed.

(** With a well-formed key range both segments are built; the call then
    ends in the differ's constructor, or returns the iterator. *)
Lemma diff_tables_built s table1 table2 o1 o2 kw :
  heap s !! table1 = Some o1 →
  heap s !! table2 = Some o2 →
  malformed_range kw = false →
  diff_tables table1 table2 kw s
  = match TableDiffer.init (bound_bisection_factor kw)
            (bound_bisection_threshold kw) (bound_debug kw)
            (bound_threaded kw) (bound_max_threadpool_size kw) with
    | Raised e =>
        (Raised e,
         after s 2 (side_calls s 0 o1 kw ++ side_calls s 1 o2 kw
                    ++ [differ_call kw]))
    | Returned differ =>
        (Returned (mkDiffIterator differ (side_segment s 0 o1 kw)
                                  (side_segment s 1 o2 kw)),
         after s 2 (side_calls s 0 o1 kw ++ side_calls s 1 o2 kw
                    ++ [differ_call kw;
                        Call_differ_diff_tables differ
                          (side_segment s 0 o1 kw) (side_segment s 1 o2 kw)]))
    end.
Proof.
  intros H1 H2 Hok.
  unfold diff_tables, bind at 1.
  rewrite (segments_built _ _ _ _ _ _ H1 H2 Hok).
  unfold new_TableDiffer, differ_diff_tables, bind, log, lift, ret, after,
    differ_call.
  simpl.
  destruct (TableDiffer.init _ _ _ _ _); simpl;
    by rewrite <- !app_assoc.
Qed.

(** A reference that is not bound to a [TableRef] fails at the first
    attribute access. *)
Lemma diff_tables_unbound s table1 table2 kw :
  heap s !! table1 = None →
  diff_tables table1 table2 kw s = (Raised AttributeError, s).
Proof.
  intros H1.
  unfold diff_tables, comprehension, create_table_segment, getattr, bind.
  by rewrite H1.
Qed.
End run.

(** ** The direct comparison of two row sequences *)

Lemma within_spec lo hi k :
  within lo hi k = true ↔
  (∀ l, lo = Some l → l ≤ k) ∧ (∀ h, hi = Some h → k < h).
Proof.
  unfold within. rewrite andb_true_iff.
  destruct lo as [l|], hi as [h|]; simpl; rewrite ?Z.leb_le, ?Z.ltb_lt.
  - split; [intros [??]; split; intros ? [= <-]; done|].
    intros [Hl Hh]. split; [by apply Hl|by apply Hh].
  - split; [intros [??]; split; [intros ? [= <-]; done|done]|].
    intros [Hl _]. split; [by apply Hl|done].
  - split; [intros [??]; split; [done|intros ? [= <-]; done]|].
    intros [_ Hh]. split; [done|by apply Hh].
  - split; [intros _; split; done|done].
Qed.

Lemma merge_compare_same rows : merge_compare rows rows = [].
Proof.
  induction rows as [|r rows IH]; [done|].
  simpl. rewrite Z.ltb_irrefl.
  unfold same_content. by rewrite bool_decide_eq_true_2.
Qed.

Lemma merge_compare_nil_r rows : merge_compare rows [] = Removed <$> rows.
Proof. by destruct rows. Qed.

Lemma merge_compare_nil_l rows : merge_compare [] rows = Added <$> rows.
Proof. by destruct rows. Qed.

(** Every key of a record of the merge-walk is the key of a row of one of
    the two sequences. *)
Lemma merge_compare_keys (P : DbKey → Prop) rows_a : ∀ rows_b,
  Forall (λ r, P (row_key r)) rows_a →
  Forall (λ r, P (row_key r)) rows_b →
  Forall (λ d, P (record_key d)) (merge_compare rows_a rows_b).
Proof.
  induction rows_a as [|a rows_a IHa]; intros rows_b Ha Hb.
  - rewrite merge_compare_nil_l, Forall_fmap. exact Hb.
  - induction rows_b as [|b rows_b IHb].
    + rewrite merge_compare_nil_r, Forall_fmap. exact Ha.
    + apply Forall_cons in Ha as [Ha Has]. apply Forall_cons in Hb as [Hb Hbs].
      cbn [merge_compare].
      destruct (row_key a <? row_key b).
      { constructor; [done|]. apply IHa; [done|by constructor]. }
      destruct (row_key b <? row_key a).
      { constructor; [done|]. apply IHb; done. }
      destruct (same_content a b).
      { by apply IHa. }
      constructor; [done|]. by apply IHa.
Qed.

(** The merge-walk of two ascending sequences emits its records in
    ascending key order. *)
Lemma merge_compare_sorted rows_a : ∀ rows_b,
  StronglySorted key_le rows_a →
  StronglySorted key_le rows_b →
  StronglySorted record_le (merge_compare rows_a rows_b).
Proof.
  induction rows_a as [|a rows_a IHa]; intros rows_b Ha Hb.
  - rewrite merge_compare_nil_l.
    by apply (StronglySorted_fmap _ key_le record_le).
  - induction rows_b as [|b rows_b IHb].
    + rewrite merge_compare_nil_r.
      by apply (StronglySorted_fmap _ key_le record_le).
    + apply StronglySorted_cons in Ha as [Ha Has].
      apply StronglySorted_cons in Hb as [Hb Hbs].
      cbn [merge_compare].
      destruct (Z.ltb_spec (row_key a) (row_key b)) as [Hab|Hab].
      { apply StronglySorted_cons. split.
        - apply (merge_compare_keys (λ k, row_key a ≤ k)).
          + by eapply Forall_impl; [exact Ha|].
          + constructor; [lia|].
            eapply Forall_impl; [exact Hb|]. unfold key_le. simpl. lia.
        - apply IHa; [done|]. apply StronglySorted_cons. done. }
      destruct (Z.ltb_spec (row_key b) (row_key a)) as [Hba|Hba].
      { apply StronglySorted_cons. split.
        - change (Forall (λ d, row_key b ≤ record_key d)
                    (merge_compare (a :: rows_a) rows_b)).
          apply (merge_compare_keys (λ k, row_key b ≤ k)).
          + constructor; [lia|].
            eapply Forall_impl; [exact Ha|]. unfold key_le. simpl. lia.
          + by eapply Forall_impl; [exact Hb|].
        - by apply IHb. }
      destruct (same_content a b).
      { by apply IHa. }
      apply StronglySorted_cons. split.
      * apply (merge_compare_keys (λ k, row_key a ≤ k)).
        -- by eapply Forall_impl; [exact Ha|].
        -- eapply Forall_impl; [exact Hb|]. unfold key_le. simpl. lia.
      * by apply IHa.
Qed.

(** ** Checkpoints and sub-ranges *)

Lemma pick_elem_of cut l : ∀ i x, x ∈ pick cut i l → x ∈ l.
Proof.
  induction l as [|y l IH]; intros i x; simpl; [done|].
  destruct (cut i).
  - rewrite !elem_of_cons. intros [->|Hx]; [by left|right; eauto].
  - rewrite elem_of_cons. eauto.
Qed.

Lemma pick_sorted (R : relation Z) cut l : ∀ i,
  StronglySorted R l → StronglySorted R (pick cut i l).
Proof.
  induction l as [|y l IH]; intros i Hl; simpl; [constructor|].
  apply StronglySorted_cons in Hl as [Hy Hl].
  destruct (cut i); [|by apply IH].
  apply StronglySorted_cons. split; [|by apply IH].
  apply Forall_forall. intros x Hx.
  rewrite Forall_forall in Hy. eapply Hy, pick_elem_of, Hx.
Qed.

Lemma tail_elem_of {A} (l : list A) x : x ∈ tail l → x ∈ l.
Proof. destruct l; simpl; [done|]. rewrite elem_of_cons. auto. Qed.

Lemma tail_sorted (R : relation Z) l :
  StronglySorted R l → StronglySorted R (tail l).
Proof.
  destruct l; simpl; [done|]. rewrite StronglySorted_cons. by intros [_ ?].
Qed.

Lemma distinct_keys_sorted ks : StronglySorted Z.le (distinct_keys ks).
Proof. unfold distinct_keys. apply StronglySorted_merge_sort; apply _. Qed.

Lemma distinct_keys_elem_of ks k : k ∈ distinct_keys ks ↔ k ∈ ks.
Proof.
  unfold distinct_keys.
  by rewrite merge_sort_Permutation, elem_of_remove_dups.
Qed.

Lemma split_points_sorted n ks :
  StronglySorted Z.le ks → StronglySorted Z.le (split_points n ks).
Proof. intros. unfold split_points. by apply pick_sorted, tail_sorted. Qed.

Lemma split_points_elem_of n ks k : k ∈ split_points n ks → k ∈ ks.
Proof. unfold split_points. intros Hk. eapply tail_elem_of, pick_elem_of, Hk. Qed.

Section core_facts.
Variable env : Env.

Lemma rows_in_range_key seg r :
  r ∈ rows_in_range env seg → in_key_range seg (row_key r) = true.
Proof.
  unfold rows_in_range. rewrite list_elem_of_filter. intros [Hr _].
  unfold in_range in Hr. apply Is_true_true in Hr.
  by apply andb_true_iff in Hr as [? _].
Qed.

Lemma FetchRows_sorted seg : StronglySorted key_le (FetchRows env seg).
Proof. unfold FetchRows. apply StronglySorted_merge_sort; apply _. Qed.

Lemma FetchRows_keys seg :
  Forall (λ r, in_key_range seg (row_key r) = true) (FetchRows env seg).
Proof.
  apply Forall_forall. intros r. unfold FetchRows.
  rewrite merge_sort_Permutation. apply rows_in_range_key.
Qed.

(** The shared checkpoints are ascending and lie inside the key range of
    the two views. *)
Lemma shared_checkpoints_sorted n a b :
  StronglySorted Z.le (shared_checkpoints env n a b).
Proof. apply split_points_sorted, distinct_keys_sorted. Qed.

Lemma shared_checkpoints_within n a b :
  TableSegment.start_key a = TableSegment.start_key b →
  TableSegment.end_key a = TableSegment.end_key b →
  Forall (λ c, within (TableSegment.start_key a) (TableSegment.end_key a) c = true)
         (shared_checkpoints env n a b).
Proof.
  intros Hlo Hhi. apply Forall_forall. intros c Hc.
  apply split_points_elem_of in Hc. rewrite distinct_keys_elem_of in Hc.
  apply elem_of_app in Hc as [Hc|Hc];
    apply list_elem_of_fmap in Hc as (r & -> & Hr);
    apply rows_in_range_key in Hr; unfold in_key_range in Hr.
  - done.
  - by rewrite Hlo, Hhi.
Qed.

(** The records of consecutive sub-ranges, taken in checkpoint order, are
    in ascending key order and stay inside the parent range. *)
Lemma sub_ranges_sorted cs : ∀ lo hi parts,
  StronglySorted Z.le cs →
  Forall (λ c, within lo hi c = true) cs →
  Forall2 (λ bounds part,
             StronglySorted record_le part ∧
             Forall (λ d, within bounds.1 bounds.2 (record_key d) = true) part)
          (sub_bounds lo cs hi) parts →
  StronglySorted record_le (concat parts) ∧
  Forall (λ d, within lo hi (record_key d) = true) (concat parts).
Proof.
  induction cs as [|c cs IH]; intros lo hi parts Hcs Hin Hparts; simpl in Hparts.
  - apply Forall2_cons_inv_l in Hparts as (part & rest & [Hs Hk] & Hrest & ->).
    apply Forall2_nil_inv_l in Hrest as ->. simpl. by rewrite app_nil_r.
  - apply Forall2_cons_inv_l in Hparts as (part & rest & [Hs Hk] & Hrest & ->).
    apply StronglySorted_cons in Hcs as [Hc Hcs].
    apply Forall_cons in Hin as [Hcin Hin].
    apply within_spec in Hcin as [Hclo Hchi].
    destruct (IH (Some c) hi rest Hcs) as [IHs IHk]; [|done|].
    { apply Forall_forall. intros c' Hc'.
      rewrite Forall_forall in Hc, Hin.
      specialize (Hc _ Hc'). specialize (Hin _ Hc').
      apply within_spec in Hin as [_ Hhi]. apply within_spec.
      split; [intros ? [= <-]; done|done]. }
    simpl in Hk. rewrite Forall_forall in Hk, IHk. simpl. split.
    + apply StronglySorted_app_2; [|done..].
      intros d1 d2 Hd1 Hd2.
      apply Hk, within_spec in Hd1 as [_ Hd1].
      apply IHk, within_spec in Hd2 as [Hd2 _].
      specialize (Hd1 _ eq_refl). specialize (Hd2 _ eq_refl).
      unfold record_le. lia.
    + apply Forall_app. split; apply Forall_forall; intros d Hd.
      * apply Hk, within_spec in Hd as [Hd1 Hd2]. apply within_spec.
        split; [done|]. intros h Hh.
        specialize (Hd2 _ eq_refl). specialize (Hchi _ Hh). lia.
      * apply IHk, within_spec in Hd as [Hd1 Hd2]. apply within_spec.
        split; [|done]. intros l Hl.
        specialize (Hd1 _ eq_refl). specialize (Hclo _ Hl). lia.
Qed.

(** With the concurrency toggle off, the differ emits its records in
    ascending key order, all of them inside the compared range. *)
Lemma bisect_and_diff_sorted differ :
  TableDiffer.threaded differ = false →
  ∀ depth a b recs,
    TableSegment.start_key a = TableSegment.start_key b →
    TableSegment.end_key a = TableSegment.end_key b →
    bisect_and_diff env differ depth a b = Some recs →
    StronglySorted record_le recs ∧
    Forall (λ d, in_key_range a (record_key d) = true) recs.
Proof.
  intros Hseq. induction depth as [|depth IH]; intros a b recs Hlo Hhi Hrun;
    [done|].
  cbn [bisect_and_diff] in Hrun.
  destruct (_ && _) in Hrun.
  { injection Hrun as <-. split; constructor. }
  destruct (_ || _) in Hrun.
  { injection Hrun as <-. split.
    - apply merge_compare_sorted; apply FetchRows_sorted.
    - apply (merge_compare_keys (λ k, in_key_range a k = true)).
      + apply FetchRows_keys.
      + eapply Forall_impl; [apply FetchRows_keys|].
        intros r. unfold in_key_range. by rewrite Hlo, Hhi. }
  destruct (_ && _) in Hrun.
  { injection Hrun as <-. split; constructor. }
  rewrite Hseq in Hrun.
  destruct (mapM _ _) as [parts|] eqn:Hparts; [|done].
  injection Hrun as <-.
  apply mapM_Some in Hparts.
  apply (sub_ranges_sorted
           (shared_checkpoints env
              (Z.to_nat (TableDiffer.bisection_factor differ)) a b)).
  - apply shared_checkpoints_sorted.
  - by apply shared_checkpoints_within.
  - eapply Forall2_impl; [exact Hparts|].
    intros [lo hi] part Hpart. by apply IH in Hpart.
Qed.

Lemma same_view_rows a b :
  same_view a b → rows_in_range env a = rows_in_range env b.
Proof.
  intros (Hu & Hp & Hk & Hupd & Hx & Hlo & Hhi & Hmin & Hmax).
  unfold rows_in_range, table_rows. rewrite Hu, Hp, Hk, Hupd, Hx.
  apply list_filter_iff. intros r.
  unfold in_range, in_key_range, in_time_range.
  by rewrite Hupd, Hlo, Hhi, Hmin, Hmax.
Qed.

(** Comparing a view with an identical view stops at the first step that
    applies: no row, a direct comparison of equal row sequences, or equal
    checksums. *)
Lemma bisect_and_diff_same differ depth a b :
  same_view a b →
  bisect_and_diff env differ (S depth) a b = Some [].
Proof.
  intros Hsame. cbn [bisect_and_diff].
  unfold RowCount, Checksum, FetchRows.
  rewrite (same_view_rows a b Hsame).
  destruct (_ && _); [done|].
  destruct (_ || _); [by rewrite merge_compare_same|].
  by rewrite !Z.eqb_refl.
Qed.
End core_facts.

(** ** Termination of the bisection *)

Lemma pick_nonempty cut l : ∀ i0 i,
  (i0 ≤ i < i0 + length l)%nat → cut i = true → pick cut i0 l ≠ [].
Proof.
  induction l as [|x l IH]; intros i0 i Hi Hcut; simpl in *; [lia|].
  destruct (cut i0) eqn:Hi0; [done|].
  apply (IH (S i0) i); [|done].
  assert (i ≠ i0) by (intros ->; congruence). lia.
Qed.

(** The last cut position, [(n - 1) * len / n], is a cut. *)
Lemma is_cut_last n len :
  (2 ≤ n)%nat → is_cut n len (Nat.pred n * len / n) = true.
Proof.
  intros Hn. unfold is_cut. apply existsb_exists.
  exists (Nat.pred n). split; [apply in_seq; lia|]. by apply Nat.eqb_eq.
Qed.

(** With at least two keys and a branching factor of at least two there
    is a checkpoint. *)
Lemma split_points_nonempty n ks :
  (2 ≤ n)%nat → (2 ≤ length ks)%nat → split_points n ks ≠ [].
Proof.
  intros Hn Hks. unfold split_points.
  apply (pick_nonempty _ _ 1%nat (Nat.pred n * length ks / n)%nat);
    [|by apply is_cut_last].
  destruct ks as [|h ks]; simpl in *; [lia|].
  split.
  - apply Nat.div_le_lower_bound; nia.
  - assert ((Nat.pred n * S (length ks) / n < S (length ks))%nat); [|lia].
    apply Nat.Div0.div_lt_upper_bound. nia.
Qed.

(** Every checkpoint is above the least key. *)
Lemma split_points_above_head n h ks c :
  StronglySorted Z.le (h :: ks) → NoDup (h :: ks) →
  c ∈ split_points n (h :: ks) → h < c.
Proof.
  intros Hs Hnd Hc. unfold split_points in Hc. simpl in Hc.
  apply pick_elem_of in Hc.
  apply StronglySorted_cons in Hs as [Hh _]. apply NoDup_cons in Hnd as [Hnh _].
  rewrite Forall_forall in Hh. specialize (Hh _ Hc).
  assert (h ≠ c) by (intros ->; done). lia.
Qed.

Lemma distinct_keys_NoDup ks : NoDup (distinct_keys ks).
Proof.
  unfold distinct_keys. rewrite merge_sort_Permutation. apply NoDup_remove_dups.
Qed.

(** A duplicate-free list that misses a key of [ks] is shorter than any
    list holding all its keys and the missing one. *)
Lemma missing_key_shorter (l ks : list DbKey) x :
  NoDup l → x ∉ l → x ∈ ks → (∀ y, y ∈ l → y ∈ ks) →
  (length l < length ks)%nat.
Proof.
  intros Hnd Hx Hin Hsub.
  assert (x :: l ⊆+ ks) as Hle.
  { apply NoDup_submseteq; [by apply NoDup_cons|].
    intros y [->|Hy]%elem_of_cons; auto. }
  apply submseteq_length in Hle. simpl in Hle. lia.
Qed.

(** The sub-ranges cut by the checkpoints: each starts at the parent's
    start or at a checkpoint, ends at the parent's end or at a checkpoint,
    and either starts at a checkpoint or ends at the first one. *)
Lemma sub_bounds_shape cs : ∀ lo hi bounds,
  bounds ∈ sub_bounds lo cs hi →
  (bounds.1 = lo ∨ ∃ c, c ∈ cs ∧ bounds.1 = Some c)
  ∧ (bounds.2 = hi ∨ ∃ c, c ∈ cs ∧ bounds.2 = Some c)
  ∧ ((∃ c, c ∈ cs ∧ bounds.1 = Some c) ∨ bounds.2 = from_option Some hi (head cs)).
Proof.
  induction cs as [|c cs IH]; intros lo hi bounds; simpl.
  - rewrite list_elem_of_singleton. intros ->. simpl. auto.
  - rewrite elem_of_cons. intros [->|Hin]; simpl.
    + split; [by left|]. split; [|by right].
      right. exists c. split; [by left|done].
    + apply IH in Hin as (Hlo & Hhi & _). repeat split.
      * right. destruct Hlo as [->|(c' & Hc' & ->)].
        -- exists c. split; [by left|done].
        -- exists c'. split; [by right|done].
      * destruct Hhi as [->|(c' & Hc' & ->)]; [by left|].
        right. exists c'. split; [by right|done].
      * left. destruct Hlo as [->|(c' & Hc' & ->)].
        -- exists c. split; [by left|done].
        -- exists c'. split; [by right|done].
Qed.

Section termination.
Variable env : Env.

Lemma range_keys_elem_of a b k :
  k ∈ range_keys env a b ↔
  ∃ r, row_key r = k ∧ (r ∈ rows_in_range env a ∨ r ∈ rows_in_range env b).
Proof.
  unfold range_keys. rewrite distinct_keys_elem_of, elem_of_app.
  rewrite !list_elem_of_fmap. split.
  - intros [(r & -> & Hr)|(r & -> & Hr)]; exists r; auto.
  - intros (r & <- & [Hr|Hr]); [left|right]; exists r; auto.
Qed.

Lemma rows_in_sub_range seg lo hi r :
  r ∈ rows_in_range env (TableSegment.sub_range seg lo hi) ↔
  r ∈ table_rows env seg ∧ within lo hi (row_key r) = true
  ∧ in_time_range seg r = true.
Proof.
  unfold rows_in_range. rewrite list_elem_of_filter.
  unfold in_range, in_key_range, in_time_range, table_rows. simpl.
  rewrite Is_true_true, andb_true_iff. unfold within. tauto.
Qed.

Lemma rows_in_range_elem_of seg r :
  r ∈ rows_in_range env seg ↔
  r ∈ table_rows env seg ∧ in_key_range seg (row_key r) = true
  ∧ in_time_range seg r = true.
Proof.
  unfold rows_in_range. rewrite list_elem_of_filter.
  unfold in_range. rewrite Is_true_true, andb_true_iff. tauto.
Qed.

(** With unique keys, a range holds at least as many distinct keys as
    either side has rows in it. *)
Lemma RowCount_le_range_keys a b :
  unique_keys env a →
  RowCount env a ≤ Z.of_nat (length (range_keys env a b)).
Proof.
  intros Ha. unfold RowCount.
  rewrite <- (length_fmap row_key (rows_in_range env a)).
  apply inj_le, submseteq_length, NoDup_submseteq.
  - eapply sublist_NoDup; [exact Ha|].
    apply fmap_sublist. unfold rows_in_range. apply sublist_filter.
  - intros k (r & -> & Hr)%list_elem_of_fmap.
    apply range_keys_elem_of. eauto.
Qed.

(** Every sub-range of a split holds fewer distinct keys than its parent. *)
Lemma sub_range_fewer_keys n a b bounds :
  (2 ≤ n)%nat →
  (2 ≤ length (range_keys env a b))%nat →
  TableSegment.start_key a = TableSegment.start_key b →
  TableSegment.end_key a = TableSegment.end_key b →
  bounds ∈ sub_bounds (TableSegment.start_key a) (shared_checkpoints env n a b)
                      (TableSegment.end_key a) →
  (length (range_keys env (TableSegment.sub_range a bounds.1 bounds.2)
                      (TableSegment.sub_range b bounds.1 bounds.2))
   < length (range_keys env a b))%nat.
Proof.
  intros Hn Hlen Hlo Hhi Hin.
  pose proof (shared_checkpoints_within env n a b Hlo Hhi) as Hcs.
  rewrite Forall_forall in Hcs.
  apply sub_bounds_shape in Hin as (Hb1 & Hb2 & Hb3).
  destruct bounds as [lo hi]. simpl in *.
  assert (∀ k, within lo hi k = true →
               within (TableSegment.start_key a) (TableSegment.end_key a) k = true)
    as Hinside.
  { intros k [Hk1 Hk2]%within_spec. apply within_spec. split.
    - intros l Hl. destruct Hb1 as [->|(c & Hc & ->)]; [by apply Hk1|].
      apply Hcs, within_spec in Hc as [Hc _].
      specialize (Hc _ Hl). specialize (Hk1 _ eq_refl). lia.
    - intros h Hh. destruct Hb2 as [->|(c & Hc & ->)]; [by apply Hk2|].
      apply Hcs, within_spec in Hc as [_ Hc].
      specialize (Hc _ Hh). specialize (Hk2 _ eq_refl). lia. }
  assert (∀ k, k ∈ range_keys env (TableSegment.sub_range a lo hi)
                              (TableSegment.sub_range b lo hi) →
               within lo hi k = true ∧ k ∈ range_keys env a b) as Hsub.
  { intros k (r & <- & Hr)%range_keys_elem_of.
    rewrite !rows_in_sub_range in Hr. split; [tauto|].
    apply range_keys_elem_of. exists r. split; [done|].
    rewrite !rows_in_range_elem_of. unfold in_key_range.
    rewrite <- Hlo, <- Hhi.
    destruct Hr as [(? & Hw & ?)|(? & Hw & ?)]; apply Hinside in Hw;
      unfold within in Hw; [left|right]; done. }
  unfold shared_checkpoints in Hb3, Hb1, Hb2.
  fold (range_keys env a b) in Hb3, Hb1, Hb2.
  pose proof (distinct_keys_sorted
    ((row_key <$> rows_in_range env a) ++ (row_key <$> rows_in_range env b)))
    as Hsorted.
  pose proof (distinct_keys_NoDup
    ((row_key <$> rows_in_range env a) ++ (row_key <$> rows_in_range env b)))
    as Hnodup.
  fold (range_keys env a b) in Hsorted, Hnodup.
  pose proof (split_points_nonempty n (range_keys env a b) Hn Hlen) as Hne.
  destruct Hb3 as [(c & Hc & ->)|Hfirst].
  - (* the sub-range starts at a checkpoint: it misses the least key *)
    destruct (range_keys env a b) as [|h ks] eqn:Hks; [simpl in Hlen; lia|].
    apply (missing_key_shorter _ _ h).
    + apply distinct_keys_NoDup.
    + intros [Hw _]%Hsub. apply within_spec in Hw as [Hw _].
      specialize (Hw _ eq_refl).
      pose proof (split_points_above_head n h ks c Hsorted Hnodup Hc). lia.
    + by left.
    + intros k Hk. by apply Hsub in Hk as [_ ?].
  - (* the sub-range ends at the first checkpoint: it misses that key *)
    destruct (split_points n (range_keys env a b)) as [|c cs] eqn:Hsp; [done|].
    simpl in Hfirst. subst hi.
    apply (missing_key_shorter _ _ c).
    + apply distinct_keys_NoDup.
    + intros [Hw _]%Hsub. apply within_spec in Hw as [_ Hw].
      specialize (Hw _ eq_refl). lia.
    + apply (split_points_elem_of n). rewrite Hsp. by left.
    + intros k Hk. by apply Hsub in Hk as [_ ?].
Qed.

(** With a valid configuration and unique keys, the bisection of a range
    is complete once the depth exceeds the number of distinct keys in the
    range. *)
Lemma bisect_and_diff_terminates differ :
  2 ≤ TableDiffer.bisection_factor differ →
  1 ≤ TableDiffer.bisection_threshold differ →
  ∀ depth a b,
    unique_keys env a → unique_keys env b →
    TableSegment.start_key a = TableSegment.start_key b →
    TableSegment.end_key a = TableSegment.end_key b →
    (length (range_keys env a b) < depth)%nat →
    is_Some (bisect_and_diff env differ depth a b).
Proof.
  intros Hbf Hbt.
  induction depth as [|depth IH]; intros a b Ha Hb Hlo Hhi Hlen; [lia|].
  cbn [bisect_and_diff].
  destruct (_ && _); [done|].
  destruct (_ || _) eqn:Hleaf; [done|].
  destruct (_ && _); [done|].
  apply orb_false_iff in Hleaf as [Hca _]. apply Z.leb_gt in Hca.
  pose proof (RowCount_le_range_keys a b Ha) as Hcount.
  assert (is_Some (mapM
    (λ '(lo, hi), bisect_and_diff env differ depth
                    (TableSegment.sub_range a lo hi)
                    (TableSegment.sub_range b lo hi))
    (sub_bounds (TableSegment.start_key a)
       (shared_checkpoints env
          (Z.to_nat (TableDiffer.bisection_factor differ)) a b)
       (TableSegment.end_key a)))) as [parts ->]; [|done].
  apply mapM_is_Some_2, Forall_forall. intros [lo hi] Hin. simpl.
  apply IH; try done.
  pose proof (sub_range_fewer_keys
                (Z.to_nat (TableDiffer.bisection_factor differ)) a b (lo, hi))
    as Hfewer.
  simpl in Hfewer. specialize (Hfewer ltac:(lia) ltac:(lia) Hlo Hhi Hin). lia.
Qed.
End termination.

(** The result of the bisection does not depend on the depth once the
    depth is enough. *)
Lemma bisect_and_diff_mono env differ : ∀ depth depth' a b recs,
  (depth ≤ depth')%nat →
  bisect_and_diff env differ depth a b = Some recs →
  bisect_and_diff env differ depth' a b = Some recs.
Proof.
  induction depth as [|depth IH]; intros depth' a b recs Hle Hrun; [done|].
  destruct depth' as [|depth']; [lia|].
  cbn [bisect_and_diff] in *.
  destruct (_ && _); [done|].
  destruct (_ || _); [done|].
  destruct (_ && _); [done|].
  destruct (mapM _ _) as [parts|] eqn:Hparts in Hrun; [|done].
  assert (mapM
    (λ '(lo, hi), bisect_and_diff env differ depth'
                    (TableSegment.sub_range a lo hi)
                    (TableSegment.sub_range b lo hi))
    (sub_bounds (TableSegment.start_key a)
       (shared_checkpoints env
          (Z.to_nat (TableDiffer.bisection_factor differ)) a b)
       (TableSegment.end_key a)) = Some parts) as ->; [|done].
  apply mapM_Some. apply mapM_Some in Hparts.
  eapply Forall2_impl; [exact Hparts|].
  intros [lo hi] part Hpart. apply (IH depth'); [lia|done].
Qed.

Lemma calls_made_after s n calls : calls_made s (after s n calls) = calls.
Proof. unfold calls_made, after. simpl. by rewrite drop_app_length. Qed.

(** ** Frame: the heap *)

Lemma preserves_heap_ret {A} (a : A) : preserves_heap (ret a).
Proof. done. Qed.

Lemma preserves_heap_raise {A} e : preserves_heap (@raise A e).
Proof. done. Qed.

Lemma preserves_heap_lift {A} (o : Outcome A) : preserves_heap (lift o).
Proof. done. Qed.

Lemma preserves_heap_log c : preserves_heap (log c).
Proof. done. Qed.

Lemma preserves_heap_getattr self : preserves_heap (getattr self).
Proof. intros s. unfold getattr. by destruct (heap s !! self). Qed.

Lemma preserves_heap_connect_to_uri db_uri thread_count :
  preserves_heap (connect_to_uri db_uri thread_count).
Proof. done. Qed.

Lemma preserves_heap_bind {A B} (m : M A) (k : A → M B) :
  preserves_heap m → (∀ a, preserves_heap (k a)) → preserves_heap (bind m k).
Proof.
  intros Hm Hk s. unfold bind. specialize (Hm s).
  destruct (m s) as [[a|e] s1]; simpl in *; [|done].
  by rewrite Hk.
Qed.

Create HintDb frame.
#[local] Hint Resolve preserves_heap_ret preserves_heap_raise
  preserves_heap_lift preserves_heap_log preserves_heap_getattr
  preserves_heap_connect_to_uri : frame.

Ltac frame :=
  repeat first [ solve [auto with frame]
               | apply preserves_heap_bind; [|intros ?] ].

Lemma preserves_heap_create_table_segment self thread_count kwargs :
  preserves_heap (create_table_segment self thread_count kwargs).
Proof.
  unfold create_table_segment, parse_table_name, new_TableSegment. frame.
Qed.

Lemma preserves_heap_comprehension {A B} (f : A → M B) xs :
  (∀ x, preserves_heap (f x)) → preserves_heap (comprehension f xs).
Proof.
  intros Hf. induction xs as [|x xs IH]; simpl; [frame|].
  apply preserves_heap_bind; [done|intros y].
  apply preserves_heap_bind; [done|intros ys]. frame.
Qed.

Lemma preserves_heap_diff_tables `{Defaults} table1 table2 kw :
  preserves_heap (diff_tables table1 table2 kw).
Proof.
  unfold diff_tables, new_TableDiffer, differ_diff_tables.
  apply preserves_heap_bind.
  { apply preserves_heap_comprehension. intros x.
    apply preserves_heap_create_table_segment. }
  intros segments.
  apply preserves_heap_bind; [frame|intros differ].
  destruct segments as [|s1 [|s2 [|]]]; frame.
Qed.

(** ** Well-formed sub-ranges *)

Lemma malformed_false lo hi :
  TableSegment.malformed lo hi = false ↔
  ∀ l h, lo = Some l → hi = Some h → l < h.
Proof.
  unfold TableSegment.malformed.
  destruct lo as [l|], hi as [h|]; try (split; [intros _ ? ? ? ?|]; done).
  rewrite Z.leb_gt. split.
  - by intros ? ? ? [= <-] [= <-].
  - intros Hlt. by apply Hlt.
Qed.

Lemma distinct_keys_strictly_sorted ks : StronglySorted Z.lt (distinct_keys ks).
Proof.
  pose proof (distinct_keys_sorted ks) as Hs.
  pose proof (distinct_keys_NoDup ks) as Hnd.
  induction (distinct_keys ks) as [|x l IH]; [constructor|].
  apply StronglySorted_cons in Hs as [Hx Hs]. apply NoDup_cons in Hnd as [Hnx Hnd].
  apply StronglySorted_cons. split; [|by apply IH].
  apply Forall_forall. intros y Hy. rewrite Forall_forall in Hx.
  specialize (Hx _ Hy). assert (x ≠ y) by (intros ->; done). lia.
Qed.

Lemma split_points_strictly_sorted n ks :
  StronglySorted Z.lt (split_points n (distinct_keys ks)).
Proof.
  unfold split_points.
  apply pick_sorted, tail_sorted, distinct_keys_strictly_sorted.
Qed.

(** Checkpoints strictly inside a well-formed range, strictly ascending,
    cut it in well-formed sub-ranges. *)
Lemma sub_bounds_well_formed cs : ∀ lo hi,
  StronglySorted Z.lt cs →
  Forall (λ c, (∀ l, lo = Some l → l < c) ∧ (∀ h, hi = Some h → c < h)) cs →
  TableSegment.malformed lo hi = false →
  Forall (λ bounds, TableSegment.malformed bounds.1 bounds.2 = false)
         (sub_bounds lo cs hi).
Proof.
  induction cs as [|c cs IH]; intros lo hi Hcs Hin Hwf; simpl.
  - by constructor.
  - apply StronglySorted_cons in Hcs as [Hc Hcs].
    apply Forall_cons in Hin as [[Hclo Hchi] Hin].
    constructor.
    + simpl. apply malformed_false. intros l h Hl [= <-]. by apply Hclo.
    + apply IH; [done| |].
      * rewrite Forall_forall in Hc, Hin. apply Forall_forall. intros c' Hc'.
        split; [intros ? [= <-]; by apply Hc|]. by apply Hin.
      * apply malformed_false. intros l h [= <-] Hh. by apply Hchi.
Qed.

(** Every sub-range view that the differ builds when it splits two
    well-formed views is well formed. *)
Lemma split_views_well_formed env n a b :
  TableSegment.start_key a = TableSegment.start_key b →
  TableSegment.end_key a = TableSegment.end_key b →
  well_formed a →
  Forall (λ bounds,
            well_formed (TableSegment.sub_range a bounds.1 bounds.2)
            ∧ well_formed (TableSegment.sub_range b bounds.1 bounds.2))
         (sub_bounds (TableSegment.start_key a) (shared_checkpoints env n a b)
                     (TableSegment.end_key a)).
Proof.
  intros Hlo Hhi Hwf.
  eapply Forall_impl.
  - apply sub_bounds_well_formed.
    + apply split_points_strictly_sorted.
    + pose proof (shared_checkpoints_within env n a b Hlo Hhi) as Hin.
      rewrite Forall_forall in Hin. apply Forall_forall. intros c Hc.
      pose proof (Hin _ Hc) as [Hc1 Hc2]%within_spec.
      split; [|done]. intros l Hl.
      unfold shared_checkpoints in Hc.
      pose proof (distinct_keys_sorted
        ((row_key <$> rows_in_range env a) ++ (row_key <$> rows_in_range env b)))
        as Hsorted.
      pose proof (distinct_keys_NoDup
        ((row_key <$> rows_in_range env a) ++ (row_key <$> rows_in_range env b)))
        as Hnodup.
      fold (range_keys env a b) in Hc, Hsorted, Hnodup.
      destruct (range_keys env a b) as [|h ks] eqn:Hks;
        [by apply split_points_elem_of, elem_of_nil in Hc|].
      pose proof (split_points_above_head n h ks c Hsorted Hnodup Hc) as Hhc.
      assert (h ∈ range_keys env a b) as Hh by (rewrite Hks; by left).
      apply range_keys_elem_of in Hh as (r & <- & Hr).
      assert (in_key_range a (row_key r) = true) as Hrange.
      { destruct Hr as [Hr|Hr]; apply rows_in_range_key in Hr; [done|].
        unfold in_key_range in *. by rewrite Hlo, Hhi. }
      apply within_spec in Hrange as [Hrange _].
      specialize (Hrange _ Hl). lia.
    + apply malformed_false. intros l h Hl Hh. by apply Hwf.
  - intros [lo hi] Hok. simpl in *.
    rewrite malformed_false in Hok.
    split; intros l h Hl Hh; by apply Hok.
Qed.

(** * The claims *)

(** ** C1 *)

(** C1.  Reflexivity: a table view compared against an identical view (same
    source, same key range, same time range, same columns) yields the empty
    sequence; in particular a call of [diff_tables] whose two sides denote
    the same database and table (the same [TableRef] object, or two equal
    ones) either is rejected for its configuration or returns an iterator
    over two identical views, which yields no record. *)
Theorem diff_tables_reflexive `{Defaults} (env : Env) :
  (∀ differ depth a b,
     same_view a b → bisect_and_diff env differ (S depth) a b = Some [])
  ∧ (∀ s table1 table2 o kw,
       heap s !! table1 = Some o → heap s !! table2 = Some o →
       match (diff_tables table1 table2 kw s).1 with
       | Returned it =>
           same_view (it_table1 it) (it_table2 it)
           ∧ ∀ depth, records env (S depth) it = Some []
       | Raised e =>
           malformed_range kw = true
           ∨ bound_bisection_factor kw < 2
           ∨ bound_bisection_threshold kw < 1
       end).
Proof.
  split; [intros; by apply bisect_and_diff_same|].
  intros s table1 table2 o kw H1 H2.
  destruct (malformed_range kw) eqn:Hrange.
  { rewrite (diff_tables_malformed _ _ _ _ _ H1 Hrange). simpl. by left. }
  rewrite (diff_tables_built _ _ _ _ _ _ H1 H2 Hrange).
  unfold TableDiffer.init.
  destruct (Z.ltb_spec (bound_bisection_factor kw) 2); [simpl; auto|].
  destruct (Z.ltb_spec (bound_bisection_threshold kw) 1); [simpl; auto|].
  simpl.
  assert (same_view (side_segment s 0 o kw) (side_segment s 1 o kw)) as Hsame
    by (repeat split).
  split; [done|]. intros depth. by apply bisect_and_diff_same.
Qed.

Lemma diff_tables_reflexive_witness :
  match (@diff_tables demo_defaults 0%nat 0%nat demo_sequential demo_state).1 with
  | Returned it => records demo_env 1 it = Some []
  | Raised _ => False
  end.
Proof.
  pose proof (proj2 (@diff_tables_reflexive demo_defaults demo_env)
                demo_state 0%nat 0%nat demo_left demo_sequential
                eq_refl eq_refl) as Hrefl.
  destruct (diff_tables 0%nat 0%nat demo_sequential demo_state).1
    as [it|e] eqn:Hcall.
  - apply Hrefl.
  - vm_compute in Hcall. discriminate Hcall.
Defined.

(** ** C2 *)

(** C2.  Every [TableSegment] constructor call made by [diff_tables] gets
    the same keyword arguments, the ones the call of [diff_tables] was
    given (or their defaults); the two views handed to the differ have
    these logical bounds, and differ only in their source: the connection
    opened on their own [TableRef]'s URI and the parsed table name. *)
Theorem segments_share_logical_bounds `{Defaults}
    s table1 table2 o1 o2 kw :
  heap s !! table1 = Some o1 →
  heap s !! table2 = Some o2 →
  segment_calls (calls_made s (diff_tables table1 table2 kw s).2) ≠ []
  ∧ Forall (λ skw, skw = segment_kwargs kw)
           (segment_calls (calls_made s (diff_tables table1 table2 kw s).2))
  ∧ ∀ it,
      (diff_tables table1 table2 kw s).1 = Returned it →
      logical_bounds (it_table1 it) = segment_kwargs kw
      ∧ logical_bounds (it_table2 it) = segment_kwargs kw
      ∧ TableSegment.database (it_table1 it)
        = mkDatabase (connections s) (TableRef.db_uri o1) (bound_db_thread_count kw)
      ∧ TableSegment.table_path (it_table1 it) = split_dots (TableRef.table_name o1)
      ∧ TableSegment.database (it_table2 it)
        = mkDatabase (S (connections s)) (TableRef.db_uri o2)
                     (bound_db_thread_count kw)
      ∧ TableSegment.table_path (it_table2 it) = split_dots (TableRef.table_name o2).
Proof.
  intros H1 H2.
  destruct (malformed_range kw) eqn:Hrange.
  { rewrite (diff_tables_malformed _ _ _ _ _ H1 Hrange). simpl.
    rewrite calls_made_after. split; [done|]. split; [|done].
    by repeat constructor. }
  rewrite (diff_tables_built _ _ _ _ _ _ H1 H2 Hrange).
  destruct (TableDiffer.init _ _ _ _ _) as [differ|e]; simpl;
    rewrite calls_made_after; (split; [done|]).
  - split; [by repeat constructor|]. by intros it [= <-].
  - split; [by repeat constructor|done].
Qed.

Lemma segments_share_logical_bounds_witness :
  Forall (λ skw, skw = @segment_kwargs demo_sequential)
    (segment_calls
       (calls_made demo_state
          (@diff_tables demo_defaults 0%nat 1%nat demo_sequential demo_state).2)).
Proof.
  exact (proj1 (proj2 (@segments_share_logical_bounds demo_defaults demo_state
                         0%nat 1%nat demo_left demo_right demo_sequential
                         eq_refl eq_refl))).
Defined.

(** ** C3 *)

(** Two more keywords are part of the interface: [debug] reaches the
    differ and [db_thread_count] reaches both connections. *)
Lemma debug_and_db_thread_count_are_exposed :
  ¬ @listed_configuration_is_all demo_defaults demo_state 0%nat 1%nat
      Kwargs.empty demo_debug
  ∧ ¬ @listed_configuration_is_all demo_defaults demo_state 0%nat 1%nat
        Kwargs.empty demo_four_threads.
Proof.
  split; intros Hall.
  - specialize (Hall ltac:(by repeat split)).
    apply (f_equal (λ r, match r.1 with
                         | Returned it => TableDiffer.debug (it_differ it)
                         | Raised _ => false
                         end)) in Hall.
    vm_compute in Hall. discriminate Hall.
  - specialize (Hall ltac:(by repeat split)).
    apply (f_equal (λ r, connect_calls (calls_made demo_state r.2))) in Hall.
    vm_compute in Hall. discriminate Hall.
Qed.

(** C3, amended.  What a call of [diff_tables] does is decided by its two
    table references and by the listed configuration together with two
    more keywords, [debug] and [db_thread_count]: two calls that agree on
    all of these behave alike.  A call that returns hands back the iterator
    of the differ built from that configuration over the two views; asking
    the differ for it is the last thing the call does, and nothing was
    compared before. *)
Theorem configuration_surface `{Defaults} :
  (∀ s table1 table2 kw kw',
     same_listed_configuration kw kw' →
     bound_debug kw = bound_debug kw' →
     bound_db_thread_count kw = bound_db_thread_count kw' →
     diff_tables table1 table2 kw s = diff_tables table1 table2 kw' s)
  ∧ (∀ s table1 table2 o1 o2 kw it,
       heap s !! table1 = Some o1 →
       heap s !! table2 = Some o2 →
       (diff_tables table1 table2 kw s).1 = Returned it →
       it_differ it = bound_differ kw
       ∧ logical_bounds (it_table1 it) = segment_kwargs kw
       ∧ logical_bounds (it_table2 it) = segment_kwargs kw
       ∧ TableSegment.concurrency_budget (it_table1 it) = bound_db_thread_count kw
       ∧ TableSegment.concurrency_budget (it_table2 it) = bound_db_thread_count kw
       ∧ ∃ calls,
           calls_made s (diff_tables table1 table2 kw s).2
           = calls ++ [Call_differ_diff_tables (it_differ it) (it_table1 it)
                                               (it_table2 it)]
           ∧ Forall (λ c, starts_diff c = false) calls).
Proof.
  split.
  - intros s table1 table2 kw kw' (Hseg & Hbf & Hbt & Hthr & Hpool) Hdbg Hdb.
    unfold diff_tables. by rewrite Hseg, Hbf, Hbt, Hthr, Hpool, Hdbg, Hdb.
  - intros s table1 table2 o1 o2 kw it H1 H2.
    destruct (malformed_range kw) eqn:Hrange.
    { by rewrite (diff_tables_malformed _ _ _ _ _ H1 Hrange). }
    rewrite (diff_tables_built _ _ _ _ _ _ H1 H2 Hrange).
    unfold TableDiffer.init.
    destruct (_ <? 2); [done|]. destruct (_ <? 1); [done|]. simpl.
    intros [= <-]. simpl. rewrite calls_made_after. repeat split.
    exists (side_calls s 0 o1 kw ++ side_calls s 1 o2 kw ++ [differ_call kw]).
    split; [by rewrite <- !app_assoc|]. by repeat constructor.
Qed.

Lemma configuration_surface_witness :
  match (@diff_tables demo_defaults 0%nat 1%nat demo_debug demo_state).1 with
  | Returned it => it_differ it = @bound_differ demo_defaults demo_debug
  | Raised _ => False
  end.
Proof.
  pose proof (proj2 (@configuration_surface demo_defaults) demo_state
                0%nat 1%nat demo_left demo_right demo_debug) as Hsurface.
  destruct (diff_tables 0%nat 1%nat demo_debug demo_state).1
    as [it|e] eqn:Hcall.
  - exact (proj1 (Hsurface it eq_refl eq_refl eq_refl)).
  - vm_compute in Hcall. discriminate Hcall.
Defined.

(** ** C4 *)

(** A call that does not pass [max_threadpool_size] builds a differ with a
    pool size of 1, a call that passes [None] one without a bound. *)
Lemma absent_pool_size_is_one :
  ¬ @absent_pool_size_is_None demo_defaults demo_state 0%nat 1%nat Kwargs.empty.
Proof.
  unfold absent_pool_size_is_None. intros Heq.
  apply (f_equal (λ r, match r.1 with
                       | Returned it =>
                           TableDiffer.max_threadpool_size (it_differ it)
                       | Raised _ => None
                       end)) in Heq.
  vm_compute in Heq. discriminate Heq.
Qed.

(** C4, amended.  The differ is built with the pool size the caller
    passed, [None] included, and with a pool size of 1 when the caller did
    not pass [max_threadpool_size]. *)
Theorem pool_size_defaults_to_one `{Defaults} s table1 table2 o1 o2 kw :
  heap s !! table1 = Some o1 →
  heap s !! table2 = Some o2 →
  let passed := match Kwargs.max_threadpool_size kw with
                | None => Some 1
                | Some v => v
                end in
  Forall (λ c, match c with
               | Call_TableDiffer _ _ _ _ max_threadpool_size =>
                   max_threadpool_size = passed
               | _ => True
               end)
         (calls_made s (diff_tables table1 table2 kw s).2)
  ∧ (∀ it,
       (diff_tables table1 table2 kw s).1 = Returned it →
       TableDiffer.max_threadpool_size (it_differ it) = passed)
  ∧ (malformed_range kw = false →
     Exists (λ c, constructs_differ c = true)
            (calls_made s (diff_tables table1 table2 kw s).2)).
Proof.
  intros H1 H2 passed.
  assert (bound_max_threadpool_size kw = passed) as Hpassed.
  { unfold bound_max_threadpool_size, passed.
    by destruct (Kwargs.max_threadpool_size kw). }
  destruct (malformed_range kw) eqn:Hrange.
  { rewrite (diff_tables_malformed _ _ _ _ _ H1 Hrange). simpl.
    rewrite calls_made_after. split; [by repeat constructor|done]. }
  rewrite (diff_tables_built _ _ _ _ _ _ H1 H2 Hrange).
  unfold TableDiffer.init.
  destruct (_ <? 2); [|destruct (_ <? 1)]; simpl; rewrite calls_made_after;
    (split; [by repeat constructor|]);
    (split; [try done|intros _; do 6 apply Exists_cons_tl; by apply Exists_cons_hd]).
  by intros it [= <-].
Qed.

Lemma pool_size_defaults_to_one_witness :
  match (@diff_tables demo_defaults 0%nat 1%nat Kwargs.empty demo_state).1 with
  | Returned it => TableDiffer.max_threadpool_size (it_differ it) = Some 1
  | Raised _ => False
  end.
Proof.
  pose proof (proj1 (proj2 (@pool_size_defaults_to_one demo_defaults demo_state
                              0%nat 1%nat demo_left demo_right Kwargs.empty
                              eq_refl eq_refl))) as Hsize.
  destruct (diff_tables 0%nat 1%nat Kwargs.empty demo_state).1
    as [it|e] eqn:Hcall.
  - by apply Hsize.
  - vm_compute in Hcall. discriminate Hcall.
Defined.

(** ** C5 *)

(** C5.  With [bisection_factor < 2] or [bisection_threshold < 1] the
    constructor of the differ raises, and so does the call of
    [diff_tables], without ever asking a differ to compare: no iterator is
    returned, so no record is produced.  When the key range is well formed
    the call ends in the differ's constructor, with its exception.  With
    [bisection_factor >= 2] and [bisection_threshold >= 1] the constructor
    returns the differ, and the call returns the iterator when the key
    range is well formed. *)
Theorem invalid_bisection_configuration_rejected `{Defaults}
    s table1 table2 o1 o2 kw :
  heap s !! table1 = Some o1 →
  heap s !! table2 = Some o2 →
  let construction :=
    TableDiffer.init (bound_bisection_factor kw) (bound_bisection_threshold kw)
      (bound_debug kw) (bound_threaded kw) (bound_max_threadpool_size kw) in
  (bound_bisection_factor kw < 2 ∨ bound_bisection_threshold kw < 1 →
     (∃ e, construction = Raised e)
     ∧ (∃ e, (diff_tables table1 table2 kw s).1 = Raised e)
     ∧ Forall (λ c, starts_diff c = false)
              (calls_made s (diff_tables table1 table2 kw s).2)
     ∧ (malformed_range kw = false →
        last (calls_made s (diff_tables table1 table2 kw s).2)
        = Some (differ_call kw)
        ∧ ∃ e, construction = Raised e
               ∧ (diff_tables table1 table2 kw s).1 = Raised e))
  ∧ (2 ≤ bound_bisection_factor kw → 1 ≤ bound_bisection_threshold kw →
       construction = Returned (bound_differ kw)
       ∧ (malformed_range kw = false →
          ∃ it, (diff_tables table1 table2 kw s).1 = Returned it
                ∧ it_differ it = bound_differ kw)).
Proof.
  intros H1 H2 construction. subst construction. split.
  - intros Hbad.
    assert (∃ e, TableDiffer.init (bound_bisection_factor kw)
                   (bound_bisection_threshold kw) (bound_debug kw)
                   (bound_threaded kw) (bound_max_threadpool_size kw)
                 = Raised e) as [e He].
    { unfold TableDiffer.init.
      destruct (Z.ltb_spec (bound_bisection_factor kw) 2); [eauto|].
      destruct (Z.ltb_spec (bound_bisection_threshold kw) 1); [eauto|lia]. }
    split; [by exists e|].
    destruct (malformed_range kw) eqn:Hrange.
    + rewrite (diff_tables_malformed _ _ _ _ _ H1 Hrange). simpl.
      rewrite calls_made_after.
      split; [eauto|]. split; [by repeat constructor|done].
    + rewrite (diff_tables_built _ _ _ _ _ _ H1 H2 Hrange), He. simpl.
      rewrite calls_made_after.
      split; [eauto|]. split; [by repeat constructor|].
      intros _. split; [done|eauto].
  - intros Hbf Hbt.
    assert (TableDiffer.init (bound_bisection_factor kw)
              (bound_bisection_threshold kw) (bound_debug kw)
              (bound_threaded kw) (bound_max_threadpool_size kw)
            = Returned (bound_differ kw)) as Hok.
    { unfold TableDiffer.init.
      destruct (Z.ltb_spec (bound_bisection_factor kw) 2); [lia|].
      destruct (Z.ltb_spec (bound_bisection_threshold kw) 1); [lia|done]. }
    split; [done|]. intros Hrange.
    rewrite (diff_tables_built _ _ _ _ _ _ H1 H2 Hrange), Hok. simpl. eauto.
Qed.

Lemma invalid_bisection_configuration_rejected_witness :
  (∃ e, (@diff_tables demo_defaults 0%nat 1%nat demo_factor_one demo_state).1
        = Raised e)
  ∧ ∃ it, (@diff_tables demo_defaults 0%nat 1%nat demo_sequential demo_state).1
          = Returned it
          ∧ it_differ it = @bound_differ demo_defaults demo_sequential.
Proof.
  split.
  - refine (proj1 (proj2 (proj1
      (@invalid_bisection_configuration_rejected demo_defaults demo_state
         0%nat 1%nat demo_left demo_right demo_factor_one eq_refl eq_refl) _))).
    left. vm_compute. reflexivity.
  - refine (proj2 (proj2
      (@invalid_bisection_configuration_rejected demo_defaults demo_state
         0%nat 1%nat demo_left demo_right demo_sequential eq_refl eq_refl)
      _ _) eq_refl); vm_compute; discriminate.
Defined.

(** ** C6 *)

(** C6.  A call of [diff_tables] with both key bounds set and
    [start_key >= end_key] raises a precondition violation in the
    constructor of the first table segment: that constructor call is the
    last call made, no differ has been constructed and no iterator is
    returned.  Every view that the constructor returns is well formed, and
    so is every sub-range view that the differ builds from well-formed
    views. *)
Theorem malformed_key_range_rejected `{Defaults} (env : Env) :
  (∀ s table1 table2 o1 kw lo hi,
     heap s !! table1 = Some o1 →
     Kwargs.start_key kw = Some (Some lo) →
     Kwargs.end_key kw = Some (Some hi) →
     hi ≤ lo →
     (diff_tables table1 table2 kw s).1
     = Raised (PreconditionViolation MalformedKeyRange)
     ∧ Forall (λ c, constructs_differ c = false ∧ starts_diff c = false)
              (calls_made s (diff_tables table1 table2 kw s).2)
     ∧ ∃ db path,
         last (calls_made s (diff_tables table1 table2 kw s).2)
         = Some (Call_TableSegment db path (segment_kwargs kw))
         ∧ TableSegment.init db path (segment_kwargs kw)
           = Raised (PreconditionViolation MalformedKeyRange))
  ∧ (∀ db path kwargs seg,
       TableSegment.init db path kwargs = Returned seg → well_formed seg)
  ∧ (∀ n a b,
       TableSegment.start_key a = TableSegment.start_key b →
       TableSegment.end_key a = TableSegment.end_key b →
       well_formed a →
       Forall (λ bounds,
                 well_formed (TableSegment.sub_range a bounds.1 bounds.2)
                 ∧ well_formed (TableSegment.sub_range b bounds.1 bounds.2))
              (sub_bounds (TableSegment.start_key a)
                          (shared_checkpoints env n a b)
                          (TableSegment.end_key a))).
Proof.
  split; [|split].
  - intros s table1 table2 o1 kw lo hi H1 Hlo Hhi Hle.
    assert (malformed_range kw = true) as Hrange.
    { unfold malformed_range, segment_kwargs. simpl. rewrite Hlo, Hhi. simpl.
      by apply Z.leb_le. }
    rewrite (diff_tables_malformed _ _ _ _ _ H1 Hrange). simpl.
    rewrite calls_made_after. split; [done|]. split; [by repeat constructor|].
    eexists _, _. split; [done|].
    unfold TableSegment.init. fold (malformed_range kw). by rewrite Hrange.
  - intros db path kwargs seg Hinit. unfold TableSegment.init in Hinit.
    destruct (TableSegment.malformed _ _) eqn:Hwf; [done|].
    injection Hinit as <-. intros lo hi. simpl. intros Hlo Hhi.
    rewrite malformed_false in Hwf. by apply Hwf.
  - intros. by apply split_views_well_formed.
Qed.

Lemma malformed_key_range_rejected_witness :
  (@diff_tables demo_defaults 0%nat 1%nat demo_malformed demo_state).1
  = Raised (PreconditionViolation MalformedKeyRange).
Proof.
  refine (proj1 (proj1 (@malformed_key_range_rejected demo_defaults demo_env)
                   demo_state 0%nat 1%nat demo_left demo_malformed 5 3
                   eq_refl eq_refl eq_refl _)).
  lia.
Defined.

(** ** C7 *)

(** C7.  With [threaded=False] the records of the sequence returned by
    [diff_tables] come in ascending order of their keys, however deep the
    bisection goes; and when the keys of both tables are unique the
    sequence is complete at a depth of one more than the number of
    distinct keys in the compared range. *)
Theorem sequential_records_ascending `{Defaults} (env : Env)
    s table1 table2 o1 o2 kw it s' :
  heap s !! table1 = Some o1 →
  heap s !! table2 = Some o2 →
  Kwargs.threaded kw = Some false →
  diff_tables table1 table2 kw s = (Returned it, s') →
  (∀ depth recs,
     records env depth it = Some recs → StronglySorted record_le recs)
  ∧ (unique_keys env (it_table1 it) → unique_keys env (it_table2 it) →
     ∃ recs,
       StronglySorted record_le recs
       ∧ ∀ depth,
           (length (range_keys env (it_table1 it) (it_table2 it)) < depth)%nat →
           records env depth it = Some recs).
Proof.
  intros H1 H2 Hseq Hcall.
  destruct (malformed_range kw) eqn:Hrange.
  { by rewrite (diff_tables_malformed _ _ _ _ _ H1 Hrange) in Hcall. }
  rewrite (diff_tables_built _ _ _ _ _ _ H1 H2 Hrange) in Hcall.
  unfold TableDiffer.init in Hcall.
  destruct (Z.ltb_spec (bound_bisection_factor kw) 2); [done|].
  destruct (Z.ltb_spec (bound_bisection_threshold kw) 1); [done|].
  injection Hcall as <- <-. unfold records. simpl.
  assert (bound_threaded kw = false) as Hoff
    by (unfold bound_threaded; by rewrite Hseq).
  assert (∀ depth recs,
    bisect_and_diff env
      (TableDiffer.mk (bound_bisection_factor kw) (bound_bisection_threshold kw)
         (bound_debug kw) (bound_threaded kw) (bound_max_threadpool_size kw))
      depth (side_segment s 0 o1 kw) (side_segment s 1 o2 kw) = Some recs →
    StronglySorted record_le recs) as Hsorted.
  { intros depth recs Hrun.
    by apply bisect_and_diff_sorted in Hrun as [? _]. }
  split; [done|]. intros Hu1 Hu2.
  set (differ := TableDiffer.mk _ _ _ _ _) in *.
  set (a := side_segment s 0 o1 kw) in *.
  set (b := side_segment s 1 o2 kw) in *.
  destruct (bisect_and_diff_terminates env differ ltac:(done) ltac:(done)
              (S (length (range_keys env a b))) a b Hu1 Hu2
              eq_refl eq_refl ltac:(lia)) as [recs Hrecs].
  exists recs. split; [by eapply Hsorted|].
  intros depth Hdepth.
  eapply bisect_and_diff_mono; [|exact Hrecs]. lia.
Qed.

Lemma sequential_records_ascending_witness :
  StronglySorted record_le
    [Changed (demo_row 3 0) (demo_row 3 1); Removed (demo_row 5 0);
     Added (demo_row 7 0)]
  ∧ ∃ recs,
      StronglySorted record_le recs
      ∧ records demo_env 9 demo_iterator = Some recs.
Proof.
  destruct (@sequential_records_ascending demo_defaults demo_env
              demo_state 0%nat 1%nat demo_left demo_right demo_sequential
              demo_iterator _ eq_refl eq_refl eq_refl eq_refl)
    as [Hsorted Hcomplete].
  split.
  - apply (Hsorted 4%nat). vm_compute. reflexivity.
  - destruct Hcomplete as (recs & Hrecs & Hrun).
    + apply (bool_decide_unpack _). vm_compute. exact I.
    + apply (bool_decide_unpack _). vm_compute. exact I.
    + exists recs. split; [done|]. apply Hrun.
      apply (bool_decide_unpack _). vm_compute. exact I.
Defined.

(** With the concurrency toggle on, the order is the scheduler's: here it
    hands over the sub-ranges last first. *)
Example concurrent_records_need_not_ascend :
  match (@diff_tables demo_defaults 0%nat 1%nat demo_concurrent demo_state).1 with
  | Returned it =>
      records demo_env 4 it
      = Some [Added (demo_row 7 0); Removed (demo_row 5 0);
              Changed (demo_row 3 0) (demo_row 3 1)]
  | Raised _ => False
  end.
Proof. vm_compute. reflexivity. Qed.

(** ** C8 *)

(** A call with a malformed key range opens the first side's connection
    only: the first segment's constructor raises before the second
    [create_table_segment] call is made. *)
Lemma malformed_range_opens_one_connection :
  ¬ @opens_one_connection_per_side demo_defaults demo_state 0%nat 0%nat
      demo_malformed.
Proof.
  intros (o1 & o2 & _ & _ & Hcalls & _).
  vm_compute in Hcalls. discriminate Hcalls.
Qed.

(** C8, amended.  A call of [diff_tables] with a well-formed key range
    opens, before it returns or raises, exactly one connection per side, by
    one [connect_to_uri] call per [TableRef] argument, first side first;
    the two connections are distinct, and so are the two segments of the
    returned iterator, also when both arguments are the same [TableRef].
    A call with a malformed key range opens the first side's connection
    only. *)
Theorem connections_opened_per_side `{Defaults} s table1 table2 o1 o2 kw :
  heap s !! table1 = Some o1 →
  heap s !! table2 = Some o2 →
  (malformed_range kw = false →
     opens_one_connection_per_side s table1 table2 kw
     ∧ ∀ it,
         (diff_tables table1 table2 kw s).1 = Returned it →
         conn_id (TableSegment.database (it_table1 it)) = connections s
         ∧ conn_id (TableSegment.database (it_table2 it)) = S (connections s)
         ∧ conn_uri (TableSegment.database (it_table1 it)) = TableRef.db_uri o1
         ∧ conn_uri (TableSegment.database (it_table2 it)) = TableRef.db_uri o2
         ∧ it_table1 it ≠ it_table2 it)
  ∧ (malformed_range kw = true →
       connect_calls (calls_made s (diff_tables table1 table2 kw s).2)
       = [(TableRef.db_uri o1, bound_db_thread_count kw)]
       ∧ connections (diff_tables table1 table2 kw s).2 = (1 + connections s)%nat).
Proof.
  intros H1 H2. split; intros Hrange.
  - unfold opens_one_connection_per_side.
    rewrite (diff_tables_built _ _ _ _ _ _ H1 H2 Hrange).
    destruct (TableDiffer.init _ _ _ _ _) as [differ|e]; simpl;
      rewrite calls_made_after.
    + split; [by exists o1, o2|].
      intros it [= <-]. simpl. repeat split.
      intros Heq. apply (f_equal (λ seg, conn_id (TableSegment.database seg))) in Heq.
      simpl in Heq. lia.
    + split; [by exists o1, o2|done].
  - rewrite (diff_tables_malformed _ _ _ _ _ H1 Hrange). simpl.
    by rewrite calls_made_after.
Qed.

Lemma connections_opened_per_side_witness :
  @opens_one_connection_per_side demo_defaults demo_state 0%nat 0%nat
    demo_sequential.
Proof.
  exact (proj1 (proj1 (@connections_opened_per_side demo_defaults demo_state
                         0%nat 0%nat demo_left demo_left demo_sequential
                         eq_refl eq_refl) eq_refl)).
Defined.

(** ** C9 *)

(** C9.  Every connection that [diff_tables] opens is given the same
    thread count, the single [db_thread_count] argument (1 when it is not
    passed); so both views handed to the differ have that concurrency
    budget, whatever the keyword arguments are. *)
Theorem both_sides_get_db_thread_count `{Defaults}
    s table1 table2 o1 o2 kw :
  heap s !! table1 = Some o1 →
  heap s !! table2 = Some o2 →
  head (connect_calls (calls_made s (diff_tables table1 table2 kw s).2))
  = Some (TableRef.db_uri o1, default 1 (Kwargs.db_thread_count kw))
  ∧ Forall (λ c, c.2 = default 1 (Kwargs.db_thread_count kw))
           (connect_calls (calls_made s (diff_tables table1 table2 kw s).2))
  ∧ ∀ it,
      (diff_tables table1 table2 kw s).1 = Returned it →
      TableSegment.concurrency_budget (it_table1 it)
      = default 1 (Kwargs.db_thread_count kw)
      ∧ TableSegment.concurrency_budget (it_table2 it)
        = default 1 (Kwargs.db_thread_count kw).
Proof.
  intros H1 H2.
  destruct (malformed_range kw) eqn:Hrange.
  { rewrite (diff_tables_malformed _ _ _ _ _ H1 Hrange). simpl.
    rewrite calls_made_after. split; [done|]. split; [|done].
    by repeat constructor. }
  rewrite (diff_tables_built _ _ _ _ _ _ H1 H2 Hrange).
  destruct (TableDiffer.init _ _ _ _ _) as [differ|e]; simpl;
    rewrite calls_made_after; (split; [done|]).
  - split; [by repeat constructor|]. by intros it [= <-].
  - split; [by repeat constructor|done].
Qed.

Lemma both_sides_get_db_thread_count_witness :
  connect_calls
    (calls_made demo_state
       (@diff_tables demo_defaults 0%nat 1%nat demo_four_threads demo_state).2)
  = [("postgres:///a"%string, 4); ("mysql:///b"%string, 4)]
  ∧ Forall (λ c : string * Z, c.2 = 4)
      (connect_calls
         (calls_made demo_state
            (@diff_tables demo_defaults 0%nat 1%nat demo_four_threads demo_state).2)).
Proof.
  split; [vm_compute; reflexivity|].
  exact (proj1 (proj2 (@both_sides_get_db_thread_count demo_defaults demo_state
                         0%nat 1%nat demo_left demo_right demo_four_threads
                         eq_refl eq_refl))).
Defined.

(** ** C10 *)

(** C10.  [diff_tables] leaves the heap as it found it, whatever its
    outcome; in particular the attributes of the two [TableRef] objects it
    was given are the ones [__init__] stored. *)
Theorem diff_tables_leaves_table_refs `{Defaults} :
  (∀ s table1 table2 kw, heap (diff_tables table1 table2 kw s).2 = heap s)
  ∧ (∀ s s1 s2 table1 table2 uri1 name1 uri2 name2 kw,
       new_TableRef uri1 name1 s = (Returned table1, s1) →
       new_TableRef uri2 name2 s1 = (Returned table2, s2) →
       heap (diff_tables table1 table2 kw s2).2 !! table1
       = Some (TableRef.mk uri1 name1)
       ∧ heap (diff_tables table1 table2 kw s2).2 !! table2
         = Some (TableRef.mk uri2 name2)).
Proof.
  split; [intros; apply preserves_heap_diff_tables|].
  intros s s1 s2 table1 table2 uri1 name1 uri2 name2 kw Hnew1 Hnew2.
  rewrite preserves_heap_diff_tables.
  unfold new_TableRef in Hnew1, Hnew2.
  injection Hnew1 as Ht1 Hs1. subst table1 s1.
  injection Hnew2 as Ht2 Hs2. subst table2 s2. cbn [heap] in *.
  split; [|by rewrite lookup_insert_eq].
  rewrite lookup_insert_ne, lookup_insert_eq; [done|].
  intros Heq.
  apply (is_fresh (dom (<[fresh (dom (heap s)) := TableRef.mk uri1 name1]> (heap s)))).
  rewrite Heq, dom_insert_L. set_solver.
Qed.

Lemma diff_tables_leaves_table_refs_witness :
  heap (@diff_tables demo_defaults 0%nat 1%nat demo_sequential
          (new_TableRef "mysql:///b" "rating"
             (new_TableRef "postgres:///a" "public.rating"
                (mkRuntime ∅ 0 [])).2).2).2 !! 0%nat
  = Some demo_left.
Proof.
  exact (proj1 (proj2 (@diff_tables_leaves_table_refs demo_defaults)
                  (mkRuntime ∅ 0 []) _ _ 0%nat 1%nat
                  "postgres:///a"%string "public.rating"%string
                  "mysql:///b"%string "rating"%string demo_sequential
                  eq_refl eq_refl)).
Defined.

(** * Further properties of the code *)

Lemma create_table_segment_default self kwargs thread_count :
  create_table_segment self thread_count kwargs
  = create_table_segment self (Some (default 1 thread_count)) kwargs.
Proof. by destruct thread_count. Qed.


Lemma TableSegment_init_well_formed `{Defaults} db path kw :
  malformed_range kw = false →
  TableSegment.init db path (segment_kwargs kw)
  = Returned (TableSegment.mk db path
      (SegmentKwargs.key_column (segment_kwargs kw))
      (SegmentKwargs.update_column (segment_kwargs kw))
      (SegmentKwargs.extra_columns (segment_kwargs kw))
      (SegmentKwargs.start_key (segment_kwargs kw))
      (SegmentKwargs.end_key (segment_kwargs kw))
      (SegmentKwargs.min_time (segment_kwargs kw))
      (SegmentKwargs.max_time (segment_kwargs kw))).
Proof.
  intros Hok. unfold TableSegment.init. fold (malformed_range kw).
  by rewrite Hok.
Qed.


(** ** X1 *)



(** ** X2 *)

(** X2.  Constructing a [TableRef] connects to nothing: it makes no call
    and opens no connection, binds a reference that was not bound before
    and leaves every other object as it was.  The attributes it stores are
    the ones a later [create_table_segment] uses: the connection is opened
    on the URI given to the constructor, and the table name given to the
    constructor is the one parsed. *)
Theorem TableRef_connects_on_demand s uri name self s1 thread_count kwargs :
  new_TableRef uri name s = (Returned self, s1) →
  heap s !! self = None
  ∧ (∀ other o, heap s !! other = Some o → heap s1 !! other = Some o)
  ∧ trace s1 = trace s
  ∧ connections s1 = connections s
  ∧ calls_made s1 (create_table_segment self thread_count kwargs s1).2
    = [Call_connect_to_uri uri (default 1 thread_count);
       Call_parse_table_name name;
       Call_TableSegment
         (mkDatabase (connections s) uri (default 1 thread_count))
         (split_dots name) kwargs].
Proof.
  unfold new_TableRef. intros Hnew.
  injection Hnew as Hself Hs1. subst self s1. cbn [heap trace connections].
  assert (heap s !! fresh (dom (heap s)) = None) as Hfresh
    by apply not_elem_of_dom, is_fresh.
  split; [done|]. split.
  { intros other o Ho. rewrite lookup_insert_ne; [done|].
    intros <-. by rewrite Hfresh in Ho. }
  split; [done|]. split; [done|].
  rewrite create_table_segment_default.
  rewrite (create_table_segment_run _ _ (TableRef.mk uri name))
    by (cbn [heap]; apply lookup_insert_eq).
  cbv zeta. unfold calls_made.
  cbn [fst snd heap trace connections TableRef.db_uri TableRef.table_name].
  by rewrite drop_app_length.
Qed.

Lemma TableRef_connects_on_demand_witness :
  connect_calls
    (calls_made (new_TableRef "sqlite:///c" "main.t" demo_state).2
       (create_table_segment 2%nat (Some 3) demo_segment_kwargs
          (new_TableRef "sqlite:///c" "main.t" demo_state).2).2)
  = [("sqlite:///c"%string, 3)].
Proof.
  pose proof (TableRef_connects_on_demand demo_state "sqlite:///c" "main.t"
                2%nat _ (Some 3) demo_segment_kwargs eq_refl)
    as (_ & _ & _ & _ & Hcalls).
  exact (f_equal connect_calls Hcalls).
Defined.

(** ** X3 *)



(** ** X4 *)

(** X4.  [diff_tables] asks a differ to compare only as its last call, and
    then it asks the differ that the [TableDiffer] constructor has just
    returned, over the two segments that the two [TableSegment] constructor
    calls have just returned, the segment of [table1] first; the iterator
    it gets is what the call returns.  Before that it has made, in this
    order, the three calls of [create_table_segment] for [table1], the
    three for [table2], and the constructor call of the differ. *)
Theorem differ_compares_what_was_constructed `{Defaults}
    s table1 table2 o1 o2 kw differ a b :
  heap s !! table1 = Some o1 →
  heap s !! table2 = Some o2 →
  Call_differ_diff_tables differ a b
    ∈ calls_made s (diff_tables table1 table2 kw s).2 →
  (diff_tables table1 table2 kw s).1 = Returned (mkDiffIterator differ a b)
  ∧ ∃ db1 db2,
      calls_made s (diff_tables table1 table2 kw s).2
      = [Call_connect_to_uri (TableRef.db_uri o1) (bound_db_thread_count kw);
         Call_parse_table_name (TableRef.table_name o1);
         Call_TableSegment db1 (split_dots (TableRef.table_name o1))
                           (segment_kwargs kw);
         Call_connect_to_uri (TableRef.db_uri o2) (bound_db_thread_count kw);
         Call_parse_table_name (TableRef.table_name o2);
         Call_TableSegment db2 (split_dots (TableRef.table_name o2))
                           (segment_kwargs kw);
         Call_TableDiffer (bound_bisection_factor kw)
           (bound_bisection_threshold kw) (bound_debug kw) (bound_threaded kw)
           (bound_max_threadpool_size kw);
         Call_differ_diff_tables differ a b]
      ∧ TableSegment.init db1 (split_dots (TableRef.table_name o1))
                          (segment_kwargs kw) = Returned a
      ∧ TableSegment.init db2 (split_dots (TableRef.table_name o2))
                          (segment_kwargs kw) = Returned b
      ∧ TableDiffer.init (bound_bisection_factor kw)
          (bound_bisection_threshold kw) (bound_debug kw) (bound_threaded kw)
          (bound_max_threadpool_size kw) = Returned differ.
Proof.
  intros H1 H2.
  destruct (malformed_range kw) eqn:Hrange.
  { rewrite (diff_tables_malformed _ _ _ _ _ H1 Hrange). cbn [fst snd].
    rewrite calls_made_after. unfold side_calls.
    rewrite !elem_of_cons, elem_of_nil. intros [?|[?|[?|[]]]]; done. }
  rewrite (diff_tables_built _ _ _ _ _ _ H1 H2 Hrange).
  destruct (TableDiffer.init _ _ _ _ _) as [differ'|e] eqn:Hinit;
    cbn [fst snd]; rewrite calls_made_after; unfold side_calls, differ_call;
    cbn [app]; rewrite !elem_of_cons, elem_of_nil; intros Hin.
  - destruct Hin as [?|[?|[?|[?|[?|[?|[?|[Hin|[]]]]]]]]]; try done.
    injection Hin as -> -> ->. split; [done|].
    exists (side_database s 0 o1 kw), (side_database s 1 o2 kw).
    split; [done|].
    rewrite !TableSegment_init_well_formed by done. done.
  - destruct Hin as [?|[?|[?|[?|[?|[?|[?|[]]]]]]]]; done.
Qed.

Lemma differ_compares_what_was_constructed_witness :
  (@diff_tables demo_defaults 0%nat 1%nat demo_sequential demo_state).1
  = Returned demo_iterator.
Proof.
  refine (proj1 (@differ_compares_what_was_constructed demo_defaults
                   demo_state 0%nat 1%nat demo_left demo_right demo_sequential
                   (it_differ demo_iterator) (it_table1 demo_iterator)
                   (it_table2 demo_iterator) eq_refl eq_refl _)).
  vm_compute. do 7 apply list_elem_of_further. apply list_elem_of_here.
Defined.

(** ** X5 *)



(** ** X6 *)

(** X6.  [diff_tables] reads nothing but its two [TableRef] arguments: in
    two states that bind them to the same attributes and have opened as
    many connections, whatever else the heap holds and whatever was done
    before, the call has the same outcome, makes the same calls and opens
    as many connections. *)
Theorem diff_tables_reads_only_its_arguments `{Defaults}
    s s' table1 table2 o1 o2 kw :
  heap s !! table1 = Some o1 → heap s' !! table1 = Some o1 →
  heap s !! table2 = Some o2 → heap s' !! table2 = Some o2 →
  connections s = connections s' →
  (diff_tables table1 table2 kw s).1 = (diff_tables table1 table2 kw s').1
  ∧ calls_made s (diff_tables table1 table2 kw s).2
    = calls_made s' (diff_tables table1 table2 kw s').2
  ∧ connections (diff_tables table1 table2 kw s).2
    = connections (diff_tables table1 table2 kw s').2.
Proof.
  intros H1 H1' H2 H2' Hconn.
  assert (∀ n o, side_database s n o kw = side_database s' n o kw) as Hdb
    by (intros; unfold side_database; by rewrite Hconn).
  assert (∀ n o, side_calls s n o kw = side_calls s' n o kw) as Hcalls
    by (intros; unfold side_calls; by rewrite Hdb).
  assert (∀ n o, side_segment s n o kw = side_segment s' n o kw) as Hseg
    by (intros; unfold side_segment; by rewrite Hdb).
  destruct (malformed_range kw) eqn:Hrange.
  { rewrite (diff_tables_malformed s _ _ _ _ H1 Hrange),
      (diff_tables_malformed s' _ _ _ _ H1' Hrange).
    cbn [fst snd connections after]. rewrite !calls_made_after.
    by rewrite Hcalls, Hconn. }
  rewrite (diff_tables_built s _ _ _ _ _ H1 H2 Hrange),
    (diff_tables_built s' _ _ _ _ _ H1' H2' Hrange).
  destruct (TableDiffer.init _ _ _ _ _) as [differ|e];
    cbn [fst snd connections after]; rewrite !calls_made_after;
    by rewrite !Hcalls, ?Hseg, Hconn.
Qed.

Lemma diff_tables_reads_only_its_arguments_witness :
  (@diff_tables demo_defaults 0%nat 1%nat demo_sequential demo_state).1
  = (@diff_tables demo_defaults 0%nat 1%nat demo_sequential demo_state_busy).1.
Proof.
  exact (proj1 (@diff_tables_reads_only_its_arguments demo_defaults
                  demo_state demo_state_busy 0%nat 1%nat demo_left demo_right
                  demo_sequential eq_refl eq_refl eq_refl eq_refl eq_refl)).
Defined.

(** ** X7 *)

(** X7.  Each keyword reaches one constructor only.  Two calls that agree
    on the keywords of the segments and on [db_thread_count] make the same
    first six calls, the ones that open the connections and build the
    segments, and return the same two segments when both return, whatever
    the keywords of the differ are.  Two calls that agree on the keywords
    of the differ return the same differ when both return, whatever the
    keywords of the segments are. *)
Theorem keywords_reach_one_constructor `{Defaults}
    s table1 table2 o1 o2 kw kw' :
  heap s !! table1 = Some o1 →
  heap s !! table2 = Some o2 →
  (same_segment_keywords kw kw' →
     take 6 (calls_made s (diff_tables table1 table2 kw s).2)
     = take 6 (calls_made s (diff_tables table1 table2 kw' s).2)
     ∧ ∀ it it',
         (diff_tables table1 table2 kw s).1 = Returned it →
         (diff_tables table1 table2 kw' s).1 = Returned it' →
         it_table1 it = it_table1 it' ∧ it_table2 it = it_table2 it')
  ∧ (same_differ_keywords kw kw' →
     ∀ it it',
       (diff_tables table1 table2 kw s).1 = Returned it →
       (diff_tables table1 table2 kw' s).1 = Returned it' →
       it_differ it = it_differ it').
Proof.
  intros H1 H2. split.
  - intros [Hkw Hdb].
    assert (malformed_range kw = malformed_range kw') as Hsame
      by (unfold malformed_range; by rewrite Hkw).
    assert (∀ n o, side_calls s n o kw = side_calls s n o kw') as Hcalls
      by (intros; unfold side_calls, side_database; by rewrite Hkw, Hdb).
    assert (∀ n o, side_segment s n o kw = side_segment s n o kw') as Hseg
      by (intros; unfold side_segment, side_database; by rewrite Hkw, Hdb).
    destruct (malformed_range kw) eqn:Hrange; symmetry in Hsame.
    { rewrite (diff_tables_malformed s _ _ _ kw H1 Hrange),
        (diff_tables_malformed s _ _ _ kw' H1 Hsame).
      cbn [fst snd]. rewrite !calls_made_after, Hcalls. done. }
    rewrite (diff_tables_built s _ _ _ _ kw H1 H2 Hrange),
      (diff_tables_built s _ _ _ _ kw' H1 H2 Hsame).
    destruct (TableDiffer.init _ _ _ _ _) as [differ|e];
      destruct (TableDiffer.init _ _ _ _ _) as [differ'|e'];
      cbn [fst snd]; rewrite !calls_made_after, !Hcalls;
      (split; [done|]); try done.
    intros it it' [= <-] [= <-]. cbn [it_table1 it_table2]. by rewrite !Hseg.
  - intros (Hbf & Hbt & Hdbg & Hthr & Hpool) it it'.
    destruct (malformed_range kw) eqn:Hrange;
      [by rewrite (diff_tables_malformed s _ _ _ kw H1 Hrange)|].
    destruct (malformed_range kw') eqn:Hrange';
      [by rewrite (diff_tables_malformed s _ _ _ kw' H1 Hrange')|].
    rewrite (diff_tables_built s _ _ _ _ kw H1 H2 Hrange),
      (diff_tables_built s _ _ _ _ kw' H1 H2 Hrange').
    rewrite Hbf, Hbt, Hdbg, Hthr, Hpool.
    destruct (TableDiffer.init _ _ _ _ _) as [differ|e]; cbn [fst]; [|done].
    by intros [= <-] [= <-].
Qed.

Lemma keywords_reach_one_constructor_witness :
  take 6 (calls_made demo_state
            (@diff_tables demo_defaults 0%nat 1%nat demo_sequential demo_state).2)
  = take 6 (calls_made demo_state
              (@diff_tables demo_defaults 0%nat 1%nat demo_debug demo_state).2).
Proof.
  refine (proj1 (proj1 (@keywords_reach_one_constructor demo_defaults
                          demo_state 0%nat 1%nat demo_left demo_right
                          demo_sequential demo_debug eq_refl eq_refl) _)).
  split; reflexivity.
Defined.

(** ** X8 *)

(** X8.  Calls of [diff_tables] share no connection.  Two successive calls
    with well-formed key ranges make four [connect_to_uri] calls, one per
    [TableRef] argument in the order of the arguments, each call with its
    own [db_thread_count]; the second call connects anew also to a
    database the first call has connected to, and the four connections of
    the two returned iterators are pairwise distinct. *)
Theorem successive_calls_share_no_connection `{Defaults}
    s table1 table2 table3 table4 o1 o2 o3 o4 kw kw' :
  heap s !! table1 = Some o1 → heap s !! table2 = Some o2 →
  heap s !! table3 = Some o3 → heap s !! table4 = Some o4 →
  malformed_range kw = false → malformed_range kw' = false →
  let first := diff_tables table1 table2 kw s in
  let second := diff_tables table3 table4 kw' first.2 in
  connect_calls (calls_made s second.2)
  = [(TableRef.db_uri o1, bound_db_thread_count kw);
     (TableRef.db_uri o2, bound_db_thread_count kw);
     (TableRef.db_uri o3, bound_db_thread_count kw');
     (TableRef.db_uri o4, bound_db_thread_count kw')]
  ∧ connections second.2 = (4 + connections s)%nat
  ∧ ∀ it it',
      first.1 = Returned it → second.1 = Returned it' →
      NoDup [TableSegment.database (it_table1 it);
             TableSegment.database (it_table2 it);
             TableSegment.database (it_table1 it');
             TableSegment.database (it_table2 it')].
Proof.
  intros H1 H2 H3 H4 Hrange Hrange'. cbv zeta.
  assert (∀ calls, heap (after s 2 calls) !! table3 = Some o3) as H3' by done.
  assert (∀ calls, heap (after s 2 calls) !! table4 = Some o4) as H4' by done.
  assert (∀ calls calls',
    calls_made s (after (after s 2 calls) 2 calls') = calls ++ calls') as Hmade.
  { intros. unfold calls_made, after. cbn [trace].
    by rewrite <- app_assoc, drop_app_length. }
  assert (∀ (a b c d : Database),
    conn_id a = connections s → conn_id b = S (connections s) →
    conn_id c = S (S (connections s)) → conn_id d = S (S (S (connections s))) →
    NoDup [a; b; c; d]) as Hdistinct.
  { intros a b c d Ha Hb Hc Hd.
    repeat (apply NoDup_cons; split);
      rewrite ?elem_of_cons, ?elem_of_nil; [..|apply NoDup_nil_2];
      intros Hin; repeat destruct Hin as [Hin|Hin]; try done;
      apply (f_equal conn_id) in Hin; lia. }
  rewrite (diff_tables_built s _ _ _ _ kw H1 H2 Hrange).
  destruct (TableDiffer.init _ _ _ _ _) as [differ|e]; cbn [fst snd];
    rewrite (diff_tables_built _ _ _ _ _ kw' (H3' _) (H4' _) Hrange');
    destruct (TableDiffer.init _ _ _ _ _) as [differ'|e']; cbn [fst snd];
    rewrite Hmade; (split; [done|]); (split; [done|]); try done.
  intros it it' [= <-] [= <-]. by apply Hdistinct.
Qed.

Lemma successive_calls_share_no_connection_witness :
  connect_calls
    (calls_made demo_state
       (@diff_tables demo_defaults 0%nat 1%nat demo_four_threads
          (@diff_tables demo_defaults 0%nat 1%nat demo_sequential
             demo_state).2).2)
  = [("postgres:///a"%string, 1); ("mysql:///b"%string, 1);
     ("postgres:///a"%string, 4); ("mysql:///b"%string, 4)].
Proof.
  exact (proj1 (@successive_calls_share_no_connection demo_defaults
                  demo_state 0%nat 1%nat 0%nat 1%nat demo_left demo_right
                  demo_left demo_right demo_sequential demo_four_threads
                  eq_refl eq_refl eq_refl eq_refl eq_refl eq_refl)).
Defined.

(** ** X9 *)

(** X9.  The order of the two [TableRef] arguments decides which side is
    connected first and which view is the differ's first, and nothing
    else: with the arguments swapped the call raises the same exception,
    or returns the same differ over the two views swapped, each a view of
    the same database, table and bounds as before; the first connection
    opened is always the one of the first argument. *)
Theorem swapping_the_tables_swaps_the_views `{Defaults}
    s table1 table2 o1 o2 kw :
  heap s !! table1 = Some o1 →
  heap s !! table2 = Some o2 →
  match (diff_tables table1 table2 kw s).1,
        (diff_tables table2 table1 kw s).1 with
  | Returned it, Returned it' =>
      it_differ it' = it_differ it
      ∧ view_of (it_table1 it') = view_of (it_table2 it)
      ∧ view_of (it_table2 it') = view_of (it_table1 it)
      ∧ conn_id (TableSegment.database (it_table1 it')) = connections s
      ∧ conn_id (TableSegment.database (it_table1 it)) = connections s
  | Raised e, Raised e' => e = e'
  | _, _ => False
  end.
Proof.
  intros H1 H2.
  destruct (malformed_range kw) eqn:Hrange.
  { by rewrite (diff_tables_malformed s _ _ _ kw H1 Hrange),
      (diff_tables_malformed s _ _ _ kw H2 Hrange). }
  rewrite (diff_tables_built s _ _ _ _ kw H1 H2 Hrange),
    (diff_tables_built s _ _ _ _ kw H2 H1 Hrange).
  by destruct (TableDiffer.init _ _ _ _ _) as [differ|e].
Qed.

Lemma swapping_the_tables_swaps_the_views_witness :
  match (@diff_tables demo_defaults 0%nat 1%nat demo_sequential demo_state).1,
        (@diff_tables demo_defaults 1%nat 0%nat demo_sequential demo_state).1 with
  | Returned it, Returned it' =>
      it_differ it' = it_differ it
      ∧ view_of (it_table1 it') = view_of (it_table2 it)
      ∧ view_of (it_table2 it') = view_of (it_table1 it)
      ∧ conn_id (TableSegment.database (it_table1 it')) = connections demo_state
      ∧ conn_id (TableSegment.database (it_table1 it)) = connections demo_state
  | Raised e, Raised e' => e = e'
  | _, _ => False
  end.
Proof.
  exact (@swapping_the_tables_swaps_the_views demo_defaults demo_state
           0%nat 1%nat demo_left demo_right demo_sequential eq_refl eq_refl).
Defined.
